(** * smallPrimes: the sieve of [primes.py] and the trial division of [factor.py]

    A shallow embedding of [genPrimes] (smallPrime/primes.py) and of
    [primeDecomposition], [decompCertificate], [divisors] and [expOverOne]
    (smallPrime/factor.py), followed by the properties proved about them.

    Python integers are [Z]; [//] and [%] are [Z.div] and [Z.modulo] (both
    round towards minus infinity, as Python does); [|] and [&] are [Z.lor]
    and [Z.land].  A [Counter] or [dict] is a [gmap Z Z], a [set] of integers
    a [gset Z], the boolean numpy array of the sieve a [list bool].  A call
    that raises, or a loop that does not terminate, yields [None]. *)

From Stdlib Require Import ZArith Znumtheory Lia.
From Stdlib Require ZmodInv.
From stdpp Require Import gmap list numbers sorting.

Local Open Scope Z_scope.

(** ** primes.py *)

Module Primes.

(** [(3*i + 1) | 1]: the integer that position [i] of the sieve stands for
    (1, 5, 7, 11, 13, ...: the residues 1 and 5 modulo 6). *)
Definition value (i : Z) : Z := Z.lor (3 * i + 1) 1.

(** [sieve[start::step] = False].  Both call sites pass [0 <= start] and
    [0 < step]; a start beyond the end of the array leaves it unchanged. *)
Definition clear_slice (start step : Z) (sieve : list bool) : list bool :=
  imap (fun j b =>
          if (start <=? Z.of_nat j) && ((Z.of_nat j - start) mod step =? 0)
          then false else b) sieve.

(** One iteration of the [for i in np.arange(1, topCheck+1)] loop.  Reading
    [sieve[i]] past the end of the array raises [IndexError]. *)
Definition sieve_pass (sieve : list bool) (i : Z) : option (list bool) :=
  match sieve !! Z.to_nat i with
  | None => None
  | Some false => Some sieve
  | Some true =>
      let k := value i in
      let a := k ^ 2 in
      let b := k * (k - 2 * Z.land i 1 + 4) in
      Some (clear_slice (b / 3) (2 * k) (clear_slice (a / 3) (2 * k) sieve))
  end.

Fixpoint sieve_loop (sieve : list bool) (indices : list Z) : option (list bool) :=
  match indices with
  | [] => Some sieve
  | i :: rest =>
      match sieve_pass sieve i with
      | None => None
      | Some sieve' => sieve_loop sieve' rest
      end
  end.

(** [np.nonzero(sieve)[0]]: the positions holding [True], ascending. *)
Fixpoint nonzero_from (j : Z) (sieve : list bool) : list Z :=
  match sieve with
  | [] => []
  | b :: rest =>
      if b then j :: nonzero_from (j + 1) rest else nonzero_from (j + 1) rest
  end.

Definition nonzero (sieve : list bool) : list Z := nonzero_from 0 sieve.

(** The body of [genPrimes(N)], given the value [root] of
    [int(np.sqrt(N))].  [np.ones] raises on a negative length. *)
Definition genPrimes_from (root N : Z) : option (list Z) :=
  let size := N / 3 + (if N mod 6 =? 2 then 1 else 0) in
  if size <? 0 then None
  else
    let topCheck := root / 3 in
    match sieve_loop (replicate (Z.to_nat size) true) (seqZ 1 topCheck) with
    | None => None
    | Some sieve => Some (2 :: 3 :: map value (tail (nonzero sieve)))
    end.

(** [genPrimes(N)].  [int(np.sqrt(N))] is taken as the integer square root
    [Z.sqrt N].  The double-precision root is rounded from the exact one, so
    its integer part is never below [Z.sqrt N], and it is above it (by one)
    only for [N] beyond 2^52; [genPrimes_root] shows that the result is the
    same for both values. *)
Definition genPrimes (N : Z) : option (list Z) := genPrimes_from (Z.sqrt N) N.

(** [i_modP(p)].  For an exponent [N >= 0] and a modulus [p > 0],
    [pow(j, N, p)] is [j^N mod p]; the loop body runs only for [p >= 3].
    When the loop ends without a [break], [i] is unbound at [return i]
    and the call raises [UnboundLocalError]. *)
Definition i_modP (p : Z) : option Z :=
  if p =? 2 then Some 1
  else
    let N := (p - 1) / 2 in
    match List.find (fun j => j ^ N mod p =? p - 1) (seqZ 1 (p - 1)) with
    | Some j => Some (j ^ (N / 2) mod p)
    | None => None
    end.

(** The loop [while b != 0 and (a > upperBound or b > upperBound): a, b = b, a % b]
    of [sumOfSquares]; [fuel] bounds the number of rounds. *)
Fixpoint sos_loop (fuel : nat) (upperBound a b : Z) : option (Z * Z) :=
  if negb (b =? 0) && ((a >? upperBound) || (b >? upperBound)) then
    match fuel with
    | O => None
    | S fuel' => sos_loop fuel' upperBound b (a mod b)
    end
  else Some (a, b).

(** [sumOfSquares(p)].  [int(p ** .5)] is taken as the integer square root
    (for [p <= 1] the call raises in any case, in [i_modP] at the latest).
    From the second round on [b] decreases, so that [p] rounds are enough
    for the loop to end. *)
Definition sumOfSquares (p : Z) : option (Z * Z) :=
  if p =? 2 then Some (1, 1)
  else
    let upperBound := Z.sqrt p + 1 in
    match i_modP p with
    | None => None
    | Some i => sos_loop (Z.to_nat p) upperBound i p
    end.

(** The dictionary [SOSpr] that [pickleSumOfSquares(N)] and [pickleAll(N)]
    build before they dump it,
    [{p: sumOfSquares(int(p)) for p in prBank if p%4 != 3}]; writing the
    file is not modelled. *)
Fixpoint SOSpr_from (prBank : list Z) (SOSpr : gmap Z (Z * Z))
  : option (gmap Z (Z * Z)) :=
  match prBank with
  | [] => Some SOSpr
  | p :: rest =>
      if p mod 4 =? 3 then SOSpr_from rest SOSpr
      else
        match sumOfSquares p with
        | None => None
        | Some ab => SOSpr_from rest (<[p := ab]> SOSpr)
        end
  end.

Definition SOSpr (N : Z) : option (gmap Z (Z * Z)) :=
  match genPrimes N with
  | None => None
  | Some prBank => SOSpr_from prBank ∅
  end.

End Primes.

(** ** factor.py *)

Module Factor.

(** [primeDecomp[pr] += 1] on a [Counter]: a missing key counts as 0. *)
Definition incr (pr : Z) (primeDecomp : gmap Z Z) : gmap Z Z :=
  <[pr := default 0 (primeDecomp !! pr) + 1]> primeDecomp.

(** The inner loop
    [q, r = divmod(N, pr); while not r: N = q; primeDecomp[pr] += 1; q, r = divmod(N, pr)]
    for [pr <> 0].  It divides at most [log2 |N|] times when [|pr| >= 2] and
    runs forever when [|pr| = 1]; [fuel] bounds the number of divisions. *)
Fixpoint divide_out (fuel : nat) (pr N : Z) (primeDecomp : gmap Z Z)
  : option (Z * gmap Z Z) :=
  if N mod pr =? 0 then
    match fuel with
    | O => None
    | S fuel' => divide_out fuel' pr (N / pr) (incr pr primeDecomp)
    end
  else Some (N, primeDecomp).

(** The [for pr in orderedPrimes] loop of [primeDecomposition], with its two
    [break]s.  [divmod(N, 0)] raises [ZeroDivisionError]. *)
Fixpoint trial (primes : list Z) (N : Z) (primeDecomp : gmap Z Z)
  : option (gmap Z Z) :=
  match primes with
  | [] => Some primeDecomp
  | pr :: rest =>
      if pr ^ 2 >? N then Some (<[N := 1]> primeDecomp)
      else if pr =? 0 then None
      else
        match divide_out (Z.to_nat (Z.abs N)) pr N primeDecomp with
        | None => None
        | Some (N', primeDecomp') =>
            if N' =? 1 then Some primeDecomp' else trial rest N' primeDecomp'
        end
  end.

Section WithTable.

(** The module-level table [orderedPrimes], unpickled when [factor.py] is
    imported. *)
Variable orderedPrimes : list Z.

Definition primeDecomposition (N : Z) : option (gmap Z Z) :=
  if N =? 0 then Some ∅
  else trial orderedPrimes (Z.abs N) ∅.

(** [reduce(operator.mul, map(lambda p: p**pDecomp[p], pDecomp), 1)].
    Multiplicities are non-negative integers, on which [**] is [Z.pow]. *)
Definition product (pDecomp : gmap Z Z) : Z :=
  map_fold (fun p m acc => acc * p ^ m) 1 pDecomp.

(** [decompCertificate(N, primeDecomp=False)].  [None] stands for the default
    argument [False]; an empty mapping is falsy in Python as well, so the
    conditional expression takes the [else] branch for it too. *)
Definition decompCertificate (N : Z) (primeDecomp : option (gmap Z Z))
  : option bool :=
  let pDecomp :=
    match primeDecomp with
    | Some d => if decide (d = ∅) then primeDecomposition N else Some d
    | None => primeDecomposition N
    end in
  match pDecomp with
  | None => None
  | Some d => Some (Z.abs N =? product d)
  end.

(** One round of the inner loop of [divisors]:
    [newDivisors = {factor*pr for factor in allDivisors}; allDivisors.update(newDivisors)]. *)
Definition extend (pr : Z) (allDivisors : gset Z) : gset Z :=
  allDivisors ∪ set_map (fun factor => factor * pr) allDivisors.

(** [for _ in range(primeDecomp[pr])]. *)
Definition extend_times (pr m : Z) (allDivisors : gset Z) : gset Z :=
  Nat.iter (Z.to_nat m) (extend pr) allDivisors.

(** The outer loop [for pr in primeDecomp], started from [{1}].  The rounds
    for different keys commute, so the order of the keys does not show in
    the resulting set. *)
Definition divisor_set (primeDecomp : gmap Z Z) : gset Z :=
  map_fold extend_times {[1]} primeDecomp.

(** [divisors(N, proper=False)]; [sorted] is ascending. *)
Definition divisors (N : Z) (proper : bool) : option (list Z) :=
  if N =? 0 then Some []
  else
    let N := Z.abs N in
    match primeDecomposition N with
    | None => None
    | Some primeDecomp =>
        let allDivisors := divisor_set primeDecomp in
        let allDivisors :=
          if proper then allDivisors ∖ {[1; N]} else allDivisors in
        Some (merge_sort Z.le (elements allDivisors))
    end.

(** [expOverOne(N)]:
    [{p: primeDecomp[p] for p in primeDecomp if primeDecomp[p] > 1}]. *)
Definition expOverOne (N : Z) : option (gmap Z Z) :=
  match primeDecomposition N with
  | None => None
  | Some primeDecomp => Some (filter (fun pm => 1 < pm.2) primeDecomp)
  end.

End WithTable.

End Factor.

Import Primes Factor.

(** ** Vocabulary of the statements *)

(** The integers prime to 6. *)
Definition coprime6 (v : Z) : Prop := v mod 6 = 1 \/ v mod 6 = 5.

(** The length of the sieve array of [genPrimes]. *)
Definition sieve_size (N : Z) : Z := N / 3 + (if N mod 6 =? 2 then 1 else 0).

(** Primality by trial of every candidate divisor, to decide [prime] on
    numerals. *)
Definition prime_check (n : Z) : bool :=
  (1 <? n) && forallb (fun d => negb (n mod d =? 0)) (seqZ 2 (n - 2)).

(** What the sieve array holds after the positions [1..t] were processed. *)
Record sieve_inv (N t : Z) (sieve : list bool) : Prop := {
  inv_length : length sieve = Z.to_nat (sieve_size N);
  inv_sound : forall j : nat, sieve !! j = Some false ->
    exists k m, 5 <= k /\ k <= m /\ value (Z.of_nat j) = k * m;
  inv_marked : forall i m, 1 <= i <= t -> Z.prime (value i) ->
    value i <= m -> coprime6 m -> value i * m < N ->
    sieve !! Z.to_nat (value i * m / 3) = Some false
}.

(** A table of primes in strictly ascending order. *)
Definition ascending_primes (table : list Z) : Prop :=
  StronglySorted Z.lt table /\ Forall Z.prime table.

(** Every prime factor of [target] is in the table. *)
Definition factors_in (table : list Z) (target : Z) : Prop :=
  forall p, Z.prime p -> (p | target) -> In p table.

(** [M] is the maximum element of the table. *)
Definition table_max (table : list Z) (M : Z) : Prop :=
  In M table /\ Forall (fun p => p <= M) table.

(** The table holds every prime up to [M]. *)
Definition complete_upto (table : list Z) (M : Z) : Prop :=
  forall p, Z.prime p -> p <= M -> In p table.

(** The decomposition built so far while the cofactor [N] is still to be
    divided: every key satisfies [P], has a positive multiplicity, and does
    not divide [N] any more. *)
Definition decomp_inv (P : Z -> Prop) (N : Z) (c : gmap Z Z) : Prop :=
  forall k v, c !! k = Some v -> P k /\ 1 <= v /\ ~ (k | N).

(** [decompCertificate(target, primeDecomposition(target))]. *)
Definition certify_decomposition (table : list Z) (target : Z) : option bool :=
  match primeDecomposition table target with
  | None => None
  | Some d => decompCertificate table target (Some d)
  end.

(** A polynomial with integer coefficients, lowest degree first, and its
    value by Horner's rule. *)
Fixpoint peval (l : list Z) (x : Z) : Z :=
  match l with
  | [] => 0
  | c :: l' => c + x * peval l' x
  end.

(** The quotient of the polynomial [l] by [x - a]. *)
Fixpoint pquot (l : list Z) (a : Z) : list Z :=
  match l with
  | [] => []
  | _ :: l' =>
      match l' with
      | [] => []
      | _ :: _ => peval l' a :: pquot l' a
      end
  end.

(** The rounds of [sumOfSquares] run Euclid's algorithm on [p] and a square
    root [i] of -1.  A state [(a, b)] is two successive remainders; [sa] and
    [sb] are the absolute values of their cofactors of [i], which the code
    does not compute. *)
Record sos_inv (p a b sa sb : Z) : Prop := {
  sos_range : 0 <= b < a;
  sos_cofactors : 0 <= sa <= sb;
  sos_det : a * sb + b * sa = p;
  sos_norm_a : (p | a * a + sa * sa);
  sos_norm_b : (p | b * b + sb * sb);
  sos_cross : (p | a * b - sa * sb)
}.

(** * Properties *)

(** ** Arithmetic of the reduced residue system modulo 6 *)

Ltac euclid := Z.to_euclidean_division_equations; lia.

Lemma lor_1 (x : Z) : 0 <= x -> Z.lor x 1 = x + 1 - x mod 2.
Proof.
  intros Hx. destruct x as [|p|p]; [reflexivity| |lia].
  destruct p as [p|p|]; [| |reflexivity].
  - change (Z.lor (Z.pos p~1) 1) with (Z.pos p~1).
    rewrite Pos2Z.inj_xI. euclid.
  - change (Z.lor (Z.pos p~0) 1) with (Z.pos p~1).
    rewrite Pos2Z.inj_xO, (Pos2Z.inj_xI p). euclid.
Qed.

Lemma land_1 (x : Z) : Z.land x 1 = x mod 2.
Proof. exact (Z.land_ones x 1 ltac:(lia)). Qed.

Lemma value_eq (i : Z) : 0 <= i -> value i = 3 * i + 1 + i mod 2.
Proof. intros Hi. unfold value. rewrite lor_1 by lia. euclid. Qed.

Lemma value_coprime6 (i : Z) : 0 <= i -> coprime6 (value i).
Proof. intros Hi. unfold coprime6. rewrite value_eq by lia. euclid. Qed.

Lemma value_div3 (i : Z) : 0 <= i -> value i / 3 = i.
Proof. intros Hi. rewrite value_eq by lia. euclid. Qed.

Lemma value_of_div3 (v : Z) : 0 <= v -> coprime6 v -> value (v / 3) = v.
Proof.
  intros Hv Hc. unfold coprime6 in Hc.
  rewrite value_eq by (apply Z.div_pos; lia). euclid.
Qed.

Lemma value_lt (i j : Z) : 0 <= i -> i < j -> value i < value j.
Proof. intros Hi Hij. rewrite !value_eq by lia. euclid. Qed.

Lemma value_ge5 (i : Z) : 1 <= i -> 5 <= value i.
Proof. intros Hi. rewrite value_eq by lia. euclid. Qed.

Lemma coprime6_mul (a b : Z) : coprime6 a -> coprime6 b -> coprime6 (a * b).
Proof.
  unfold coprime6. intros Ha Hb. rewrite Z.mul_mod by lia.
  destruct Ha as [-> | ->], Hb as [-> | ->]; cbn; auto.
Qed.

Lemma coprime6_factor (a b : Z) : coprime6 (a * b) -> coprime6 b.
Proof.
  unfold coprime6. rewrite Z.mul_mod by lia.
  assert (Ha : 0 <= a mod 6 < 6) by (apply Z.mod_pos_bound; lia).
  assert (Hb : 0 <= b mod 6 < 6) by (apply Z.mod_pos_bound; lia).
  assert (Hcases : forall x y, 0 <= x < 6 -> 0 <= y < 6 ->
            (x * y) mod 6 = 1 \/ (x * y) mod 6 = 5 -> y = 1 \/ y = 5).
  { intros x y Hx Hy H.
    assert (x = 0 \/ x = 1 \/ x = 2 \/ x = 3 \/ x = 4 \/ x = 5) as Ex by lia.
    assert (y = 0 \/ y = 1 \/ y = 2 \/ y = 3 \/ y = 4 \/ y = 5) as Ey by lia.
    destruct Ex as [-> | [-> | [-> | [-> | [-> | ->]]]]],
             Ey as [-> | [-> | [-> | [-> | [-> | ->]]]]];
      vm_compute in H; lia. }
  apply Hcases; assumption.
Qed.

(** The size of the sieve is chosen so that position [j] lies in it exactly
    when the integer it stands for is below [N]. *)
Lemma size_spec (N j : Z) :
  0 <= j ->
  j < N / 3 + (if N mod 6 =? 2 then 1 else 0) <-> value j < N.
Proof.
  intros Hj. rewrite value_eq by lia.
  destruct (Z.eqb_spec (N mod 6) 2); euclid.
Qed.

(** ** Primes *)

Lemma prime_gt1 (p : Z) : Z.prime p -> 1 < p.
Proof. intros [H _]. exact H. Qed.

Lemma composite_divisor (n : Z) :
  1 < n -> ~ Z.prime n -> exists d, 1 < d < n /\ (d | n).
Proof.
  intros Hn Hnp. apply not_prime_divide; [exact Hn|].
  intros Hp. apply Hnp, prime_alt, Hp.
Qed.

Lemma prime_decide (n : Z) : {Z.prime n} + {~ Z.prime n}.
Proof.
  destruct (prime_dec n) as [Hp | Hnp].
  - left. apply prime_alt, Hp.
  - right. intros Hp. apply Hnp, prime_alt, Hp.
Qed.

Lemma prime_factor (n : Z) : 1 < n -> exists p, Z.prime p /\ (p | n).
Proof.
  intros Hn. assert (H0 : 0 <= n) by lia. revert Hn.
  pattern n. apply Z_lt_induction; [clear n H0 | exact H0].
  intros n IH Hn. destruct (prime_decide n) as [Hp | Hnp].
  - exists n. split; [exact Hp | apply Z.divide_refl].
  - destruct (composite_divisor n Hn Hnp) as (d & Hd & Hdiv).
    destruct (IH d ltac:(lia) ltac:(lia)) as (p & Hp & Hpd).
    exists p. split; [exact Hp | eapply Z.divide_trans; eassumption].
Qed.

(** A composite number has a prime factor not above its square root. *)
Lemma composite_factor (n : Z) :
  1 < n -> ~ Z.prime n -> exists p, Z.prime p /\ (p | n) /\ p * p <= n.
Proof.
  intros Hn Hnp.
  destruct (composite_divisor n Hn Hnp) as (d & Hd & (e & He)).
  assert (1 < e) by nia.
  assert (Hm : exists m, 1 < m /\ (m | n) /\ m * m <= n).
  { destruct (Z_le_gt_dec d e).
    - exists d. split; [lia|]. split; [exists e; lia | nia].
    - exists e. split; [lia|]. split; [exists d; lia | nia]. }
  destruct Hm as (m & Hm1 & Hmn & Hmm).
  destruct (prime_factor m Hm1) as (p & Hp & Hpm).
  assert (p <= m) by (apply Z.divide_pos_le; [lia | exact Hpm]).
  pose proof (prime_gt1 p Hp).
  exists p. split; [exact Hp|]. split; [eapply Z.divide_trans; eassumption | nia].
Qed.

Lemma prime_not_mul (k m : Z) : 1 < k -> 1 < m -> ~ Z.prime (k * m).
Proof.
  intros Hk Hm Hp.
  destruct (Z.divide_prime_r k _ Hp) as [E | [E | [E | E]]]; [| nia ..].
  exists m. lia.
Qed.

Lemma prime_coprime6 (p : Z) : Z.prime p -> p <> 2 -> p <> 3 -> coprime6 p.
Proof.
  intros Hp H2 H3. unfold coprime6.
  pose proof (prime_gt1 p Hp) as Hp1.
  assert (N2 : ~ (2 | p)).
  { intros D. destruct (Z.divide_prime_r 2 _ Hp D) as [E | [E | [E | E]]]; lia. }
  assert (N3 : ~ (3 | p)).
  { intros D. destruct (Z.divide_prime_r 3 _ Hp D) as [E | [E | [E | E]]]; lia. }
  assert (Hr : 0 <= p mod 6 < 6) by (apply Z.mod_pos_bound; lia).
  assert (Hq : p = 6 * (p / 6) + p mod 6) by (apply Z.div_mod; lia).
  destruct (Z.eq_dec (p mod 6) 1) as [|n1]; [auto|].
  destruct (Z.eq_dec (p mod 6) 5) as [|n5]; [auto|].
  exfalso.
  assert (C : p mod 6 = 0 \/ p mod 6 = 2 \/ p mod 6 = 3 \/ p mod 6 = 4) by lia.
  destruct C as [C | [C | [C | C]]].
  - apply N2. exists (3 * (p / 6)). lia.
  - apply N2. exists (3 * (p / 6) + 1). lia.
  - apply N3. exists (2 * (p / 6) + 1). lia.
  - apply N2. exists (3 * (p / 6) + 2). lia.
Qed.

Lemma coprime6_prime_ge5 (p : Z) : Z.prime p -> coprime6 p -> 5 <= p.
Proof.
  intros Hp Hc. pose proof (prime_gt1 p Hp). unfold coprime6 in Hc. euclid.
Qed.

Lemma prime_check_sound (n : Z) : prime_check n = true -> Z.prime n.
Proof.
  unfold prime_check. intros H. apply andb_prop in H as [H1 H2].
  apply Z.ltb_lt in H1. split; [exact H1|].
  intros d Hd Hdiv.
  rewrite forallb_forall in H2.
  assert (Hin : In d (seqZ 2 (n - 2))).
  { apply list_elem_of_In, elem_of_seqZ. lia. }
  specialize (H2 d Hin). apply negb_true_iff, Z.eqb_neq in H2.
  apply H2. apply Z.mod_divide; [lia | exact Hdiv].
Qed.

(** ** The sieve *)

Lemma clear_slice_lookup (start step : Z) (sieve : list bool) (j : nat) :
  clear_slice start step sieve !! j =
  (fun b => if (start <=? Z.of_nat j) && ((Z.of_nat j - start) mod step =? 0)
            then false else b) <$> sieve !! j.
Proof. unfold clear_slice. apply list_lookup_imap. Qed.

Lemma clear_slice_length (start step : Z) (sieve : list bool) :
  length (clear_slice start step sieve) = length sieve.
Proof. unfold clear_slice. apply length_imap. Qed.

Lemma clear_slice_false (start step : Z) (sieve : list bool) (j : nat) :
  clear_slice start step sieve !! j = Some false ->
  sieve !! j = Some false \/
  (start <= Z.of_nat j /\ (Z.of_nat j - start) mod step = 0).
Proof.
  rewrite clear_slice_lookup. destruct (sieve !! j) as [b|]; [|discriminate].
  cbn. destruct (Z.leb_spec start (Z.of_nat j)); cbn.
  - destruct (Z.eqb_spec ((Z.of_nat j - start) mod step) 0); [auto|].
    intros [= ->]. auto.
  - intros [= ->]. auto.
Qed.

Lemma clear_slice_keeps (start step : Z) (sieve : list bool) (j : nat) :
  sieve !! j = Some false -> clear_slice start step sieve !! j = Some false.
Proof.
  intros H. rewrite clear_slice_lookup, H. cbn.
  destruct (_ && _); reflexivity.
Qed.

Lemma clear_slice_hits (start step : Z) (sieve : list bool) (j : nat) :
  (j < length sieve)%nat ->
  start <= Z.of_nat j -> (Z.of_nat j - start) mod step = 0 ->
  clear_slice start step sieve !! j = Some false.
Proof.
  intros Hj Hs Hm. rewrite clear_slice_lookup.
  destruct (lookup_lt_is_Some_2 sieve j Hj) as [b ->]. cbn.
  destruct (Z.leb_spec start (Z.of_nat j)); [|lia].
  rewrite Hm. reflexivity.
Qed.

(** The positions of a slice [(k*c)//3 :: 2*k] stand for the multiples
    [k * (c + 6*t)] of [k]. *)
Lemma slice_index (k c t : Z) :
  k * (c + 6 * t) / 3 = k * c / 3 + 2 * k * t.
Proof.
  replace (k * (c + 6 * t)) with (k * c + 2 * k * t * 3) by lia.
  apply Z.div_add. lia.
Qed.

Lemma slice_value (k c j : Z) :
  0 < k -> 0 <= c -> coprime6 k -> coprime6 c ->
  k * c / 3 <= j -> (j - k * c / 3) mod (2 * k) = 0 ->
  exists t, 0 <= t /\ value j = k * (c + 6 * t).
Proof.
  intros Hk Hc Ck Cc Hj Hm.
  apply Z.mod_divide in Hm; [|lia]. destruct Hm as [t Ht].
  assert (0 <= t) by nia.
  exists t. split; [assumption|].
  replace j with (k * (c + 6 * t) / 3) by (rewrite slice_index; lia).
  apply value_of_div3; [nia|].
  apply coprime6_mul; [exact Ck|].
  unfold coprime6 in *. rewrite (Z.mul_comm 6 t), Z.mod_add by lia. exact Cc.
Qed.

Lemma slice_member (k c m : Z) :
  0 < k -> c <= m -> m mod 6 = c mod 6 ->
  k * c / 3 <= k * m / 3 /\ (k * m / 3 - k * c / 3) mod (2 * k) = 0.
Proof.
  intros Hk Hcm Hmod.
  assert (E : exists t, 0 <= t /\ m = c + 6 * t).
  { exists ((m - c) / 6). split; [apply Z.div_pos; lia | euclid]. }
  destruct E as (t & Ht & ->). rewrite slice_index. split; [nia|].
  replace (k * c / 3 + 2 * k * t - k * c / 3) with (t * (2 * k)) by lia.
  apply Z.mod_mul. lia.
Qed.

(** The second stride of position [i] starts at [k * c] for the least
    [c >= k] prime to 6 in the residue class other than that of [k]. *)
Lemma second_factor (i : Z) :
  1 <= i ->
  value i <= value i - 2 * Z.land i 1 + 4 /\
  coprime6 (value i - 2 * Z.land i 1 + 4) /\
  (value i - 2 * Z.land i 1 + 4) mod 6 <> value i mod 6 /\
  (forall m, value i <= m ->
             m mod 6 = (value i - 2 * Z.land i 1 + 4) mod 6 ->
             value i - 2 * Z.land i 1 + 4 <= m).
Proof.
  intros Hi. rewrite land_1, value_eq by lia. unfold coprime6.
  repeat split; [euclid | euclid | euclid |].
  intros m Hm Hmod. euclid.
Qed.

Lemma sieve_index_lt (N v : Z) (sieve : list bool) :
  length sieve = Z.to_nat (sieve_size N) ->
  0 <= v -> coprime6 v -> v < N ->
  (Z.to_nat (v / 3) < length sieve)%nat.
Proof.
  intros Hlen Hv Hc HN.
  assert (0 <= v / 3) by (apply Z.div_pos; lia).
  assert (v / 3 < sieve_size N).
  { apply size_spec; [assumption|]. rewrite value_of_div3; assumption. }
  lia.
Qed.

Lemma sieve_pass_inv (N t : Z) (sieve : list bool) :
  0 <= t -> t + 1 < sieve_size N -> sieve_inv N t sieve ->
  exists sieve',
    sieve_pass sieve (t + 1) = Some sieve' /\ sieve_inv N (t + 1) sieve'.
Proof.
  intros Ht Hsz [Hlen Hsound Hmark]. unfold sieve_pass.
  destruct (lookup_lt_is_Some_2 sieve (Z.to_nat (t + 1))) as [b Hb]; [lia|].
  rewrite Hb.
  pose proof (value_ge5 (t + 1) ltac:(lia)) as Hk5.
  pose proof (value_coprime6 (t + 1) ltac:(lia)) as Hkc.
  destruct (second_factor (t + 1) ltac:(lia)) as (Hc1 & Hc2 & Hc3 & Hc4).
  destruct b.
  - eexists. split; [reflexivity|].
    set (k := value (t + 1)) in *.
    set (c := k - 2 * Z.land (t + 1) 1 + 4) in *.
    rewrite Z.pow_2_r.
    split.
    + rewrite !clear_slice_length. exact Hlen.
    + intros j Hj.
      apply clear_slice_false in Hj as [Hj | [H1 H2]];
        [apply clear_slice_false in Hj as [Hj | [H1 H2]] |].
      * apply Hsound, Hj.
      * destruct (slice_value k k (Z.of_nat j)) as (u & Hu & Ev);
          [lia | lia | assumption .. |].
        exists k, (k + 6 * u). repeat split; [lia | lia | exact Ev].
      * destruct (slice_value k c (Z.of_nat j)) as (u & Hu & Ev);
          [lia | lia | assumption .. |].
        exists k, (c + 6 * u). repeat split; [lia | lia | exact Ev].
    + intros i m Hi Hp Hm Hcm HN.
      destruct (Z.eq_dec i (t + 1)) as [-> | Hne].
      * fold k in Hm, HN |- *.
        assert (Hidx : (Z.to_nat (k * m / 3) < length sieve)%nat).
        { apply (sieve_index_lt N); [exact Hlen | nia | | exact HN].
          apply coprime6_mul; assumption. }
        assert (0 <= k * m / 3) by (apply Z.div_pos; nia).
        assert (Hcase : m mod 6 = k mod 6 \/ m mod 6 = c mod 6)
          by (unfold coprime6 in *; lia).
        destruct Hcase as [Hmk | Hmc].
        -- apply clear_slice_keeps.
           destruct (slice_member k k m ltac:(lia) Hm Hmk) as [S1 S2].
           apply clear_slice_hits; [exact Hidx | lia |].
           rewrite Z2Nat.id by lia. exact S2.
        -- destruct (slice_member k c m ltac:(lia) (Hc4 m Hm Hmc) Hmc) as [S1 S2].
           apply clear_slice_hits;
             [rewrite clear_slice_length; exact Hidx | lia |].
           rewrite Z2Nat.id by lia. exact S2.
      * do 2 apply clear_slice_keeps. apply Hmark; try assumption. lia.
  - exists sieve. split; [reflexivity|]. split; [exact Hlen | exact Hsound |].
    intros i m Hi Hp Hm Hcm HN.
    destruct (Z.eq_dec i (t + 1)) as [-> | Hne].
    + exfalso. destruct (Hsound _ Hb) as (k' & m' & Hk' & Hm' & E).
      rewrite Z2Nat.id in E by lia. rewrite E in Hp.
      exact (prime_not_mul k' m' ltac:(lia) ltac:(lia) Hp).
    + apply Hmark; try assumption. lia.
Qed.

Lemma sieve_inv_init (N : Z) :
  sieve_inv N 0 (replicate (Z.to_nat (sieve_size N)) true).
Proof.
  split.
  - apply length_replicate.
  - intros j Hj. apply lookup_replicate in Hj as [Hj _]. discriminate.
  - intros; lia.
Qed.

Lemma sieve_loop_inv (N : Z) (n : nat) : forall t sieve,
  0 <= t -> t + Z.of_nat n < sieve_size N -> sieve_inv N t sieve ->
  exists sieve',
    sieve_loop sieve (seqZ (t + 1) (Z.of_nat n)) = Some sieve' /\
    sieve_inv N (t + Z.of_nat n) sieve'.
Proof.
  induction n as [|n IH]; intros t sieve Ht Hsz Hinv.
  - exists sieve. split; [reflexivity|]. rewrite Z.add_0_r. exact Hinv.
  - rewrite seqZ_cons by lia. cbn [sieve_loop].
    destruct (sieve_pass_inv N t sieve) as (s1 & E1 & I1); [lia | lia | exact Hinv |].
    rewrite E1.
    replace (Z.pred (Z.of_nat (S n))) with (Z.of_nat n) by lia.
    replace (Z.succ (t + 1)) with (t + 1 + 1) by lia.
    destruct (IH (t + 1) s1) as (s2 & E2 & I2); [lia | lia | exact I1 |].
    exists s2. split; [exact E2|].
    replace (t + Z.of_nat (S n)) with (t + 1 + Z.of_nat n) by lia. exact I2.
Qed.

(** Once every position up to [sqrt N // 3] was processed, the positions left
    [True] (but for position 0, which stands for 1) are those of the primes. *)
Lemma sieve_final (N t : Z) (sieve : list bool) (j : Z) :
  sieve_inv N t sieve -> Z.sqrt N / 3 <= t -> 1 <= j ->
  sieve !! Z.to_nat j = Some true <-> Z.prime (value j) /\ value j < N.
Proof.
  intros [Hlen Hsound Hmark] Ht Hj.
  pose proof (value_ge5 j Hj) as Hv5.
  pose proof (value_coprime6 j ltac:(lia)) as Hvc.
  split.
  - intros Hlook.
    assert (HvN : value j < N).
    { apply size_spec; [lia|]. fold (sieve_size N).
      apply lookup_lt_Some in Hlook. lia. }
    split; [|exact HvN].
    destruct (prime_decide (value j)) as [Hp | Hnp]; [exact Hp | exfalso].
    destruct (composite_factor (value j) ltac:(lia) Hnp) as (p & Hp & [m Em] & Hpp).
    pose proof (prime_gt1 p Hp) as Hp1.
    assert (Cp : coprime6 p) by (apply (coprime6_factor m); rewrite <- Em; exact Hvc).
    assert (Cm : coprime6 m).
    { apply (coprime6_factor p). rewrite Z.mul_comm, <- Em. exact Hvc. }
    assert (Hpm : p <= m) by nia.
    assert (Ep : value (p / 3) = p) by (apply value_of_div3; [lia | exact Cp]).
    pose proof (coprime6_prime_ge5 p Hp Cp) as Hp5.
    assert (Hi : 1 <= p / 3 <= t).
    { split; [euclid|]. etransitivity; [|exact Ht].
      apply Z.div_le_mono; [lia|]. apply Z.sqrt_le_square; lia. }
    specialize (Hmark (p / 3) m Hi). rewrite Ep in Hmark.
    specialize (Hmark Hp Hpm Cm ltac:(lia)).
    replace (p * m) with (value j) in Hmark by lia.
    rewrite value_div3 in Hmark by lia. congruence.
  - intros [Hp HvN].
    assert (Hlt : (Z.to_nat j < length sieve)%nat).
    { apply size_spec in HvN; [|lia]. fold (sieve_size N) in HvN. lia. }
    destruct (lookup_lt_is_Some_2 sieve _ Hlt) as [[|] Hb]; [exact Hb | exfalso].
    destruct (Hsound _ Hb) as (k & m & Hk & Hm & E).
    rewrite Z2Nat.id in E by lia. rewrite E in Hp.
    exact (prime_not_mul k m ltac:(lia) ltac:(lia) Hp).
Qed.

Lemma sieve_first (N : Z) (t : Z) (sieve : list bool) :
  sieve_inv N t sieve -> 0 < sieve_size N -> sieve !! 0%nat = Some true.
Proof.
  intros [Hlen Hsound _] Hsz.
  destruct (lookup_lt_is_Some_2 sieve 0%nat ltac:(lia)) as [[|] Hb];
    [exact Hb | exfalso].
  destruct (Hsound _ Hb) as (k & m & Hk & Hm & E).
  change (value (Z.of_nat 0)) with 1 in E. nia.
Qed.

Lemma nonzero_from_spec (sieve : list bool) : forall j0 j,
  In j (nonzero_from j0 sieve) <->
  j0 <= j /\ sieve !! Z.to_nat (j - j0) = Some true.
Proof.
  induction sieve as [|b rest IH]; intros j0 j; cbn [nonzero_from].
  - split; [intros [] | intros [_ H]; discriminate].
  - assert (Hrest : In j (nonzero_from (j0 + 1) rest) <->
                    j0 < j /\ (b :: rest) !! Z.to_nat (j - j0) = Some true).
    { rewrite IH. split; intros [H1 H2]; (split; [lia|]).
      - replace (Z.to_nat (j - j0)) with (S (Z.to_nat (j - (j0 + 1)))) by lia.
        exact H2.
      - replace (Z.to_nat (j - j0)) with (S (Z.to_nat (j - (j0 + 1)))) in H2 by lia.
        exact H2. }
    assert (Hhead : j = j0 -> (b :: rest) !! Z.to_nat (j - j0) = Some b).
    { intros ->. rewrite Z.sub_diag. reflexivity. }
    destruct b; cbn [In]; rewrite Hrest; split.
    + intros [<- | [H1 H2]]; [split; [lia | auto] | split; [lia | exact H2]].
    + intros [H1 H2]. destruct (Z.eq_dec j0 j); [left; assumption | right; split; [lia | exact H2]].
    + intros [H1 H2]. split; [lia | exact H2].
    + intros [H1 H2]. split; [|exact H2].
      destruct (Z.eq_dec j j0) as [E | ?]; [|lia].
      rewrite (Hhead E) in H2. discriminate.
Qed.

Lemma nonzero_from_sorted (sieve : list bool) : forall j0,
  StronglySorted Z.lt (nonzero_from j0 sieve).
Proof.
  induction sieve as [|b rest IH]; intros j0; cbn [nonzero_from].
  - constructor.
  - destruct b; [|apply IH].
    constructor; [apply IH|].
    apply Forall_forall. intros x Hx.
    apply list_elem_of_In, nonzero_from_spec in Hx. lia.
Qed.

Lemma map_value_sorted (l : list Z) :
  Forall (fun j => 0 <= j) l -> StronglySorted Z.lt l ->
  StronglySorted Z.lt (map value l).
Proof.
  intros Hpos Hs. induction Hs as [|j l Hs IH Hall]; cbn [map].
  - constructor.
  - apply Forall_cons_1 in Hpos as [Hj Hpos].
    constructor; [apply IH, Hpos|].
    rewrite Forall_forall in Hall, Hpos |- *.
    intros v Hv. apply list_elem_of_In, in_map_iff in Hv as (x & <- & Hx).
    apply list_elem_of_In in Hx. apply value_lt; [exact Hj | apply Hall, Hx].
Qed.

Lemma tail_nonzero (sieve : list bool) :
  sieve !! 0%nat = Some true ->
  tail (nonzero sieve) = nonzero_from 1 (tail sieve).
Proof. destruct sieve as [|[|] rest]; [discriminate | reflexivity | discriminate]. Qed.

Lemma tail_nonzero_spec (sieve : list bool) (j : Z) :
  sieve !! 0%nat = Some true ->
  In j (tail (nonzero sieve)) <-> 1 <= j /\ sieve !! Z.to_nat j = Some true.
Proof.
  intros H0. rewrite (tail_nonzero sieve H0), nonzero_from_spec, lookup_tail.
  split; intros [H1 H2]; (split; [exact H1|]).
  - replace (Z.to_nat j) with (S (Z.to_nat (j - 1))) by lia. exact H2.
  - replace (Z.to_nat j) with (S (Z.to_nat (j - 1))) in H2 by lia. exact H2.
Qed.

(** The body of [genPrimes] on a bound above 5, with the integer square
    root or its successor for [int(np.sqrt(N))]: the call returns, and the
    array it returns holds the primes below the bound in ascending order. *)
Lemma genPrimes_from_spec (root N : Z) :
  5 < N -> Z.sqrt N <= root <= Z.sqrt N + 1 ->
  exists primes,
    genPrimes_from root N = Some primes /\
    StronglySorted Z.lt primes /\
    (forall p, In p primes <-> Z.prime p /\ p < N).
Proof.
  intros HN Hroot. unfold genPrimes_from. fold (sieve_size N).
  assert (Hsz : 2 <= sieve_size N) by (unfold sieve_size; destruct (_ =? _); euclid).
  destruct (Z.ltb_spec (sieve_size N) 0) as [|_]; [lia|].
  pose proof (Z.sqrt_spec N ltac:(lia)) as Hs. cbn zeta in Hs.
  pose proof (Z.sqrt_nonneg N) as Hs0.
  assert (Htop : 0 <= root / 3) by (apply Z.div_pos; lia).
  assert (Hle : Z.sqrt N / 3 <= root / 3) by (apply Z.div_le_mono; lia).
  assert (Htop' : root / 3 < sieve_size N).
  { assert (2 <= Z.sqrt N) by nia.
    assert (3 * (root / 3) <= Z.sqrt N + 1) by euclid.
    destruct (Z.eq_dec (Z.sqrt N) 2) as [E2 | Hne].
    - assert (root / 3 <= 1) by lia. lia.
    - assert (Z.sqrt N + 1 <= N - 5) by nia.
      unfold sieve_size. destruct (_ =? _); euclid. }
  destruct (sieve_loop_inv N (Z.to_nat (root / 3)) 0
              (replicate (Z.to_nat (sieve_size N)) true))
    as (sieve & Eloop & Hinv); [lia | lia | apply sieve_inv_init |].
  rewrite Z2Nat.id in Eloop, Hinv by lia.
  change (0 + 1) with 1 in Eloop. rewrite Z.add_0_l in Hinv.
  rewrite Eloop. eexists. split; [reflexivity|].
  pose proof (sieve_first N _ sieve Hinv ltac:(lia)) as Hfirst.
  assert (Hmem : forall p, In p (map value (tail (nonzero sieve))) <->
                           Z.prime p /\ p < N /\ 5 <= p).
  { intros p. rewrite in_map_iff. split.
    - intros (j & <- & Hj). apply (tail_nonzero_spec sieve j Hfirst) in Hj as [Hj1 Hj].
      apply (sieve_final N _ sieve j Hinv Hle Hj1) in Hj as [Hp Hlt].
      split; [exact Hp|]. split; [exact Hlt | apply value_ge5, Hj1].
    - intros (Hp & Hlt & H5).
      assert (Cp : coprime6 p) by (apply prime_coprime6; [exact Hp | lia | lia]).
      assert (Ep : value (p / 3) = p) by (apply value_of_div3; [lia | exact Cp]).
      assert (H1 : 1 <= p / 3) by euclid.
      exists (p / 3). split; [exact Ep|].
      apply (tail_nonzero_spec sieve _ Hfirst). split; [exact H1|].
      apply (sieve_final N _ sieve _ Hinv Hle H1). rewrite Ep. auto. }
  split.
  - assert (Hsorted : StronglySorted Z.lt (map value (tail (nonzero sieve)))).
    { apply map_value_sorted.
      - apply Forall_forall. intros j Hj.
        apply list_elem_of_In, (tail_nonzero_spec sieve j Hfirst) in Hj. lia.
      - rewrite (tail_nonzero sieve Hfirst). apply nonzero_from_sorted. }
    assert (Hge : Forall (fun p => 5 <= p) (map value (tail (nonzero sieve)))).
    { apply Forall_forall. intros p Hp. apply list_elem_of_In, Hmem in Hp. lia. }
    constructor; [constructor; [exact Hsorted|] |].
    + eapply Forall_impl; [exact Hge|]. cbn. intros; lia.
    + constructor; [lia|]. eapply Forall_impl; [exact Hge|]. cbn. intros; lia.
  - intros p. cbn [In]. rewrite Hmem. split.
    + intros [<- | [<- | H]]; [split; [exact Z.prime_2 | lia] | split; [exact Z.prime_3 | lia] | tauto].
    + intros [Hp Hlt]. pose proof (prime_gt1 p Hp).
      destruct (Z.eq_dec p 2); [auto|]. destruct (Z.eq_dec p 3); [auto|].
      right; right. split; [exact Hp|]. split; [exact Hlt|].
      apply coprime6_prime_ge5; [exact Hp | apply prime_coprime6; assumption].
Qed.

Lemma genPrimes_spec (N : Z) :
  5 < N ->
  exists primes,
    genPrimes N = Some primes /\
    StronglySorted Z.lt primes /\
    (forall p, In p primes <-> Z.prime p /\ p < N).
Proof. intros HN. apply genPrimes_from_spec; [exact HN | lia]. Qed.

(** ** The product of a decomposition *)

Lemma product_empty : product ∅ = 1.
Proof. apply map_fold_empty. Qed.

Lemma product_insert (c : gmap Z Z) (k v : Z) :
  c !! k = None -> product (<[k := v]> c) = product c * k ^ v.
Proof.
  intros Hk. unfold product.
  rewrite map_fold_insert_L; [reflexivity | intros; lia | exact Hk].
Qed.

Lemma product_delete (c : gmap Z Z) (k v : Z) :
  c !! k = Some v -> product c = product (delete k c) * k ^ v.
Proof.
  intros Hk. unfold product.
  rewrite (map_fold_delete_L _ _ k v c); [reflexivity | intros; lia | exact Hk].
Qed.

Lemma product_incr (c : gmap Z Z) (pr : Z) :
  (forall v, c !! pr = Some v -> 0 <= v) ->
  product (incr pr c) = product c * pr.
Proof.
  intros Hv. unfold incr.
  destruct (c !! pr) as [v|] eqn:E; unfold default, from_option, id.
  - rewrite <- insert_delete_eq, product_insert by apply lookup_delete_eq.
    specialize (Hv v eq_refl).
    rewrite (product_delete c pr v E), Z.pow_add_r, Z.pow_1_r by lia.
    lia.
  - rewrite product_insert by exact E. change (0 + 1) with 1.
    rewrite Z.pow_1_r. reflexivity.
Qed.

(** ** Trial division *)

(** The inner loop divides [pr] out of [N] completely, and counts. *)
Lemma divide_out_spec (P : Z -> Prop) (pr : Z) :
  2 <= pr -> P pr ->
  forall fuel N c,
    1 <= N -> N <= Z.of_nat fuel ->
    decomp_inv P N (delete pr c) ->
    (forall v, c !! pr = Some v -> 1 <= v) ->
    exists N' c',
      divide_out fuel pr N c = Some (N', c') /\
      1 <= N' /\ (N' | N) /\ ~ (pr | N') /\
      N' * product c' = N * product c /\
      decomp_inv P N' c'.
Proof.
  intros Hpr HP. induction fuel as [|fuel IH]; intros N c HN Hfuel Hinv Hv;
    cbn [divide_out]; destruct (Z.eqb_spec (N mod pr) 0) as [Hmod | Hmod].
  - lia.
  - exists N, c. split; [reflexivity|]. split; [exact HN|].
    split; [apply Z.divide_refl|]. split.
    { intros D. apply Hmod, Z.mod_divide; [lia | exact D]. }
    split; [reflexivity|].
    intros k v Hk. destruct (Z.eq_dec k pr) as [-> | Hne].
    + split; [exact HP|]. split; [apply Hv, Hk|].
      intros D. apply Hmod, Z.mod_divide; [lia | exact D].
    + apply (Hinv k v). rewrite lookup_delete_ne by congruence. exact Hk.
  - assert (EN : N = pr * (N / pr)) by (apply Z.div_exact; lia).
    assert (1 <= N / pr) by nia.
    destruct (IH (N / pr) (incr pr c)) as (N' & c' & E & H1 & Hdiv & Hnd & Hprod & Hinv').
    + assumption.
    + nia.
    + unfold incr. rewrite delete_insert_eq.
      intros k v Hk. destruct (Hinv k v Hk) as (Pk & Hv1 & Hnd).
      split; [exact Pk|]. split; [exact Hv1|].
      intros D. apply Hnd. rewrite EN. apply Z.divide_mul_r, D.
    + unfold incr. intros v. rewrite lookup_insert_eq. intros [= <-].
      destruct (c !! pr) as [v|] eqn:E; unfold default, from_option, id; [|lia].
      specialize (Hv v eq_refl). lia.
    + exists N', c'. split; [exact E|]. split; [exact H1|].
      split. { rewrite EN. apply Z.divide_mul_r, Hdiv. }
      split; [exact Hnd|]. split; [|exact Hinv'].
      rewrite Hprod, product_incr.
      * rewrite EN at 2. lia.
      * intros v Hc. specialize (Hv v Hc). lia.
  - exists N, c. split; [reflexivity|]. split; [exact HN|].
    split; [apply Z.divide_refl|]. split.
    { intros D. apply Hmod, Z.mod_divide; [lia | exact D]. }
    split; [reflexivity|].
    intros k v Hk. destruct (Z.eq_dec k pr) as [-> | Hne].
    + split; [exact HP|]. split; [apply Hv, Hk|].
      intros D. apply Hmod, Z.mod_divide; [lia | exact D].
    + apply (Hinv k v). rewrite lookup_delete_ne by congruence. exact Hk.
Qed.

Lemma decomp_inv_fresh (P : Z -> Prop) (N : Z) (c : gmap Z Z) :
  decomp_inv P N c -> c !! N = None.
Proof.
  intros Hinv. destruct (c !! N) as [v|] eqn:E; [|reflexivity].
  destruct (Hinv N v E) as (_ & _ & Hnd). destruct Hnd. apply Z.divide_refl.
Qed.

Lemma decomp_inv_delete (P : Z -> Prop) (N pr : Z) (c : gmap Z Z) :
  decomp_inv P N c -> decomp_inv P N (delete pr c).
Proof.
  intros Hinv k v Hk. apply lookup_delete_Some in Hk as [_ Hk]. exact (Hinv k v Hk).
Qed.

Lemma decomp_inv_empty (P : Z -> Prop) (N : Z) : decomp_inv P N ∅.
Proof. intros k v Hk. rewrite lookup_empty in Hk. discriminate. Qed.

(** How the loop over the table can end: either the decomposition found
    multiplies back to the number, or the table was exhausted and a cofactor
    above 1 that no element of the table divides was left out. *)
Lemma trial_outcome (primes : list Z) : forall N c,
  Forall (fun p => 2 <= p) primes -> 1 <= N ->
  decomp_inv (fun _ => True) N c ->
  exists d,
    trial primes N c = Some d /\
    (product d = N * product c \/
     exists N', 1 < N' /\ (N' | N) /\ product d * N' = N * product c /\
                Forall (fun p => ~ (p | N')) primes).
Proof.
  induction primes as [|pr rest IH]; intros N c Htab HN Hinv; cbn [trial].
  - exists c. split; [reflexivity|].
    destruct (Z.eq_dec N 1) as [-> | Hne]; [left; lia | right].
    exists N. split; [lia|]. split; [apply Z.divide_refl|]. split; [lia | constructor].
  - apply Forall_cons_1 in Htab as [Hpr Htab].
    destruct (Z.gtb_spec (pr ^ 2) N) as [Hsq | Hsq].
    { eexists. split; [reflexivity|]. left.
      rewrite product_insert by (eapply decomp_inv_fresh, Hinv).
      rewrite Z.pow_1_r. lia. }
    destruct (Z.eqb_spec pr 0) as [|_]; [lia|].
    destruct (divide_out_spec (fun _ => True) pr Hpr I (Z.to_nat (Z.abs N)) N c)
      as (N' & c' & E & H1 & Hdiv & Hnd & Hprod & Hinv').
    { exact HN. } { lia. } { apply decomp_inv_delete, Hinv. }
    { intros v Hv. destruct (Hinv pr v Hv) as (_ & Hv1 & _). exact Hv1. }
    rewrite E. destruct (Z.eqb_spec N' 1) as [-> | Hne].
    { exists c'. split; [reflexivity|]. left. lia. }
    destruct (IH N' c' Htab H1 Hinv') as (d & Ed & Hout).
    exists d. split; [exact Ed|].
    destruct Hout as [Hout | (N'' & Hgt & Hdiv' & Hprod' & Hnone)]; [left; lia | right].
    exists N''. split; [exact Hgt|].
    split; [eapply Z.divide_trans; eassumption|]. split; [lia|].
    constructor; [|exact Hnone].
    intros D. apply Hnd. eapply Z.divide_trans; eassumption.
Qed.

(** With an ascending table of primes that holds the prime factors of the
    number, every key recorded is prime. *)
Lemma trial_prime_keys (primes : list Z) : forall N c,
  ascending_primes primes -> 1 < N ->
  (forall q, Z.prime q -> (q | N) -> In q primes) ->
  decomp_inv Z.prime N c ->
  exists d,
    trial primes N c = Some d /\
    (forall k v, d !! k = Some v -> Z.prime k /\ 1 <= v).
Proof.
  induction primes as [|pr rest IH]; intros N c [Hsort Hprime] HN Hfac Hinv.
  - destruct (prime_factor N HN) as (q & Hq & Hdiv). destruct (Hfac q Hq Hdiv).
  - cbn [trial]. apply Forall_cons_1 in Hprime as [Hpr Hprime].
    apply StronglySorted_inv in Hsort as [Hsort Hlt].
    pose proof (Z.prime_ge_2 pr Hpr) as Hpr2.
    destruct (Z.gtb_spec (pr ^ 2) N) as [Hsq | Hsq].
    { eexists. split; [reflexivity|]. intros k v Hk.
      apply lookup_insert_Some in Hk as [[<- <-] | [_ Hk]].
      - split; [|lia].
        destruct (prime_decide N) as [Hp | Hnp]; [exact Hp | exfalso].
        destruct (composite_factor N HN Hnp) as (q & Hq & Hdiv & Hqq).
        assert (pr <= q).
        { destruct (Hfac q Hq Hdiv) as [<- | Hin]; [lia|].
          rewrite Forall_forall in Hlt.
          apply list_elem_of_In, Hlt in Hin. lia. }
        nia.
      - destruct (Hinv k v Hk) as (Pk & Hv & _). auto. }
    destruct (Z.eqb_spec pr 0) as [|_]; [lia|].
    destruct (divide_out_spec Z.prime pr Hpr2 Hpr (Z.to_nat (Z.abs N)) N c)
      as (N' & c' & E & H1 & Hdiv & Hnd & Hprod & Hinv').
    { lia. } { lia. } { apply decomp_inv_delete, Hinv. }
    { intros v Hv. destruct (Hinv pr v Hv) as (_ & Hv1 & _). exact Hv1. }
    rewrite E. destruct (Z.eqb_spec N' 1) as [-> | Hne].
    { exists c'. split; [reflexivity|]. intros k v Hk.
      destruct (Hinv' k v Hk) as (Pk & Hv & _). auto. }
    apply IH; [split; assumption | lia | | exact Hinv'].
    intros q Hq Hq'.
    destruct (Hfac q Hq) as [<- | Hin];
      [eapply Z.divide_trans; eassumption | contradiction | exact Hin].
Qed.

(** No finite table holds every prime. *)
Lemma prime_outside (table : list Z) : exists q, Z.prime q /\ ~ In q table.
Proof.
  set (Q := fold_right (fun t acc => Z.max (Z.abs t) 1 * acc) 1 table).
  assert (HQ : 1 <= Q /\ forall t, In t table -> 1 < t -> (t | Q)).
  { subst Q. induction table as [|a table [IH1 IH2]]; cbn [fold_right In].
    - split; [lia | intros t []].
    - split; [nia|]. intros t [<- | Hin] Ht.
      + replace (Z.max (Z.abs a) 1) with a by lia. apply Z.divide_factor_l.
      + apply Z.divide_mul_r, IH2; assumption. }
  destruct HQ as [HQ1 HQdiv].
  destruct (prime_factor (Q + 1) ltac:(lia)) as (q & Hq & Hdiv).
  pose proof (prime_gt1 q Hq) as Hq1.
  exists q. split; [exact Hq|]. intros Hin.
  specialize (HQdiv q Hin Hq1).
  assert (D1 : (q | 1)).
  { replace 1 with (Q + 1 - Q) by lia. apply Z.divide_sub_r; assumption. }
  apply Z.divide_1_r_nonneg in D1; lia.
Qed.

Lemma factors_in_nonzero (table : list Z) (target : Z) :
  factors_in table target -> target <> 0.
Proof.
  intros Hfac ->. destruct (prime_outside table) as (q & Hq & Hout).
  apply Hout, Hfac; [exact Hq | apply Z.divide_0_r].
Qed.

(** Within the table, the decomposition multiplies back to [|target|]. *)
Lemma decomposition_product (table : list Z) (target : Z) :
  Forall (fun p => 2 <= p) table -> factors_in table target ->
  exists d, primeDecomposition table target = Some d /\ product d = Z.abs target.
Proof.
  intros Htab Hfac. pose proof (factors_in_nonzero table target Hfac) as Hnz.
  unfold primeDecomposition. destruct (Z.eqb_spec target 0) as [|_]; [contradiction|].
  destruct (trial_outcome table (Z.abs target) ∅ Htab ltac:(lia)
              (decomp_inv_empty _ _)) as (d & Ed & Hout).
  exists d. split; [exact Ed|]. rewrite product_empty in Hout.
  destruct Hout as [Hout | (N' & Hgt & Hdiv & _ & Hnone)]; [lia | exfalso].
  destruct (prime_factor N' Hgt) as (q & Hq & Hq').
  assert (Hin : In q table).
  { apply Hfac; [exact Hq|]. apply Z.divide_abs_r.
    eapply Z.divide_trans; eassumption. }
  rewrite Forall_forall in Hnone. apply list_elem_of_In, Hnone in Hin.
  contradiction.
Qed.

(** ** Divisors *)

(** One round with a prime [p] turns the positive divisors of [Q] into those
    of [Q * p]. *)
Lemma extend_spec (p Q : Z) (S : gset Z) :
  Z.prime p \/ p = 1 ->
  (forall x, x ∈ S <-> 0 < x /\ (x | Q)) ->
  forall x, x ∈ extend p S <-> 0 < x /\ (x | Q * p).
Proof.
  intros Hp HS x. unfold extend. rewrite elem_of_union, elem_of_map.
  assert (Hp0 : 0 < p) by (destruct Hp as [Hp | ->]; [apply prime_gt1 in Hp|]; lia).
  split.
  - intros [Hx | (f & -> & Hf)].
    + apply HS in Hx as [H0 Hd]. split; [exact H0 | apply Z.divide_mul_l, Hd].
    + apply HS in Hf as [H0 Hd]. split; [nia | apply Z.mul_divide_mono_r, Hd].
  - intros [H0 Hd]. destruct Hp as [Hp | ->].
    + destruct (Z.eq_dec (x mod p) 0) as [Hmod | Hmod].
      * apply Z.mod_divide in Hmod as [f Hf]; [|lia].
        right. exists f. split; [exact Hf|]. apply HS. split; [nia|].
        apply (Z.mul_divide_cancel_r f Q p); [lia|]. rewrite <- Hf. exact Hd.
      * left. apply HS. split; [exact H0|].
        apply (Z.gauss x p Q); [rewrite Z.mul_comm; exact Hd|].
        rewrite Z.gcd_comm. apply Z.coprime_prime_l; [exact Hp|].
        intros D. apply Hmod, Z.mod_divide; [lia | exact D].
    + left. apply HS. rewrite Z.mul_1_r in Hd. auto.
Qed.

Lemma extend_times_spec (p m Q : Z) (S : gset Z) :
  Z.prime p \/ p = 1 -> 0 <= m ->
  (forall x, x ∈ S <-> 0 < x /\ (x | Q)) ->
  forall x, x ∈ extend_times p m S <-> 0 < x /\ (x | Q * p ^ m).
Proof.
  intros Hp Hm HS. unfold extend_times.
  assert (Hiter : forall (n : nat) x,
             x ∈ Nat.iter n (extend p) S <-> 0 < x /\ (x | Q * p ^ Z.of_nat n)).
  { induction n as [|n IH]; intros x; cbn [Nat.iter].
    - change (p ^ Z.of_nat 0) with 1. rewrite Z.mul_1_r. apply HS.
    - rewrite Nat2Z.inj_succ, Z.pow_succ_r by lia.
      replace (Q * (p * p ^ Z.of_nat n)) with (Q * p ^ Z.of_nat n * p) by lia.
      apply extend_spec; assumption. }
  intros x. rewrite (Hiter (Z.to_nat m) x), Z2Nat.id by exact Hm. reflexivity.
Qed.

(** The rounds of [divisors] for two keys commute, so that the set built does
    not depend on the order in which the keys of the decomposition come. *)
Lemma extend_comm (p q : Z) (S : gset Z) :
  extend p (extend q S) = extend q (extend p S).
Proof.
  unfold extend. apply set_eq. intros x.
  rewrite !elem_of_union, !elem_of_map. split.
  - intros [[Hx | (f & -> & Hf)] | (g & -> & Hg)].
    + auto.
    + right. exists f. split; [reflexivity | apply elem_of_union; auto].
    + apply elem_of_union in Hg as [Hg | Hg].
      * left. right. exists g. auto.
      * apply elem_of_map in Hg as (f & -> & Hf).
        right. exists (f * p). split; [lia|].
        apply elem_of_union. right. apply elem_of_map. exists f. auto.
  - intros [[Hx | (f & -> & Hf)] | (g & -> & Hg)].
    + auto.
    + right. exists f. split; [reflexivity | apply elem_of_union; auto].
    + apply elem_of_union in Hg as [Hg | Hg].
      * left. right. exists g. auto.
      * apply elem_of_map in Hg as (f & -> & Hf).
        right. exists (f * q). split; [lia|].
        apply elem_of_union. right. apply elem_of_map. exists f. auto.
Qed.

Lemma extend_times_comm (p m q n : Z) (S : gset Z) :
  extend_times p m (extend_times q n S) = extend_times q n (extend_times p m S).
Proof.
  unfold extend_times.
  generalize (Z.to_nat m) as a, (Z.to_nat n) as b. intros a b.
  assert (Hone : forall b S, extend p (Nat.iter b (extend q) S) =
                             Nat.iter b (extend q) (extend p S)).
  { clear. induction b as [|b IH]; intros S; [reflexivity|].
    change (Nat.iter (Datatypes.S b) (extend q) S)
      with (extend q (Nat.iter b (extend q) S)).
    change (Nat.iter (Datatypes.S b) (extend q) (extend p S))
      with (extend q (Nat.iter b (extend q) (extend p S))).
    rewrite extend_comm, IH. reflexivity. }
  induction a as [|a IH]; [reflexivity|].
  change (Nat.iter (Datatypes.S a) (extend p) (Nat.iter b (extend q) S))
    with (extend p (Nat.iter a (extend p) (Nat.iter b (extend q) S))).
  change (Nat.iter (Datatypes.S a) (extend p) S)
    with (extend p (Nat.iter a (extend p) S)).
  rewrite IH, Hone. reflexivity.
Qed.

(** The set that [divisors] accumulates holds the positive divisors of the
    product of the decomposition it is run on. *)
Lemma divisor_set_spec (c : gmap Z Z) :
  (forall k v, c !! k = Some v -> (Z.prime k \/ k = 1) /\ 0 <= v) ->
  forall x, x ∈ divisor_set c <-> 0 < x /\ (x | product c).
Proof.
  unfold divisor_set.
  apply (map_fold_weak_ind
           (fun (r : gset Z) (m : gmap Z Z) =>
              (forall k v, m !! k = Some v -> (Z.prime k \/ k = 1) /\ 0 <= v) ->
              forall x, x ∈ r <-> 0 < x /\ (x | product m))).
  - intros _ x. rewrite product_empty, elem_of_singleton. split.
    + intros ->. split; [lia | apply Z.divide_refl].
    + intros [H0 Hd]. apply Z.divide_1_r_nonneg; [lia | exact Hd].
  - intros k v m r Hk IH Hwf x.
    rewrite product_insert by exact Hk.
    destruct (Hwf k v (lookup_insert_eq m k v)) as [Hp Hv].
    apply extend_times_spec; [exact Hp | exact Hv |].
    apply IH. intros k' v' Hk'. apply (Hwf k' v').
    rewrite lookup_insert_ne; [exact Hk' | congruence].
Qed.

(** ** Sorting a set *)

Lemma sorted_le_NoDup (l : list Z) :
  StronglySorted Z.le l -> NoDup l -> StronglySorted Z.lt l.
Proof.
  intros Hs. induction Hs as [|x l Hs IH Hall]; intros Hnd.
  - constructor.
  - apply NoDup_cons in Hnd as [Hx Hnd]. constructor; [apply IH, Hnd|].
    rewrite Forall_forall in Hall |- *. intros y Hy.
    specialize (Hall y Hy). assert (x <> y) by (intros ->; contradiction). lia.
Qed.

Lemma sorted_elements (S : gset Z) :
  StronglySorted Z.lt (merge_sort Z.le (elements S)) /\
  (forall x, In x (merge_sort Z.le (elements S)) <-> x ∈ S).
Proof.
  split.
  - apply sorted_le_NoDup.
    + apply StronglySorted_merge_sort; apply _.
    + rewrite merge_sort_Permutation. apply NoDup_elements.
  - intros x. rewrite <- list_elem_of_In, merge_sort_Permutation.
    apply elem_of_elements.
Qed.

Lemma sorted_lt_unique (l1 : list Z) : forall l2,
  StronglySorted Z.lt l1 -> StronglySorted Z.lt l2 ->
  (forall x, In x l1 <-> In x l2) -> l1 = l2.
Proof.
  induction l1 as [|a l1 IH]; intros [|b l2] H1 H2 Hmem.
  - reflexivity.
  - destruct (proj2 (Hmem b) (or_introl eq_refl)).
  - destruct (proj1 (Hmem a) (or_introl eq_refl)).
  - apply StronglySorted_inv in H1 as [H1 Ha], H2 as [H2 Hb].
    rewrite Forall_forall in Ha, Hb.
    assert (a = b).
    { destruct (proj1 (Hmem a) (or_introl eq_refl)) as [E | Hin]; [auto|].
      destruct (proj2 (Hmem b) (or_introl eq_refl)) as [E | Hin']; [auto|].
      apply list_elem_of_In, Hb in Hin. apply list_elem_of_In, Ha in Hin'. lia. }
    subst b. f_equal. apply IH; [assumption .. |].
    intros x. split; intros Hx.
    + destruct (proj1 (Hmem x) (or_intror Hx)) as [<- | Hin]; [|exact Hin].
      apply list_elem_of_In, Ha in Hx. lia.
    + destruct (proj2 (Hmem x) (or_intror Hx)) as [<- | Hin]; [|exact Hin].
      apply list_elem_of_In, Hb in Hx. lia.
Qed.

Lemma sorted_filter (P : Z -> Prop) `{!forall x, Decision (P x)} (l : list Z) :
  StronglySorted Z.lt l -> StronglySorted Z.lt (filter P l).
Proof.
  intros Hs. induction Hs as [|x l Hs IH Hall].
  - constructor.
  - rewrite filter_cons. destruct (decide (P x)); [|exact IH].
    constructor; [exact IH|].
    rewrite Forall_forall in Hall |- *. intros y Hy.
    apply list_elem_of_filter in Hy as [_ Hy]. apply Hall, Hy.
Qed.

(** The integer part of the floating-point root may be the integer square
    root or its successor: [genPrimes] returns the same array for both. *)
Lemma genPrimes_root (root N : Z) :
  5 < N -> Z.sqrt N <= root <= Z.sqrt N + 1 ->
  genPrimes_from root N = genPrimes N.
Proof.
  intros HN Hroot.
  destruct (genPrimes_from_spec root N HN Hroot) as (l1 & E1 & S1 & M1).
  destruct (genPrimes_spec N HN) as (l2 & E2 & S2 & M2).
  rewrite E1, E2. f_equal. apply sorted_lt_unique; [exact S1 | exact S2|].
  intros p. rewrite M1, M2. reflexivity.
Qed.

(** ** The decomposition within the table *)

Lemma ascending_ge2 (table : list Z) :
  ascending_primes table -> Forall (fun p => 2 <= p) table.
Proof.
  intros [_ Hp]. eapply Forall_impl; [exact Hp|]. exact Z.prime_ge_2.
Qed.

Lemma primes_ge2 (table : list Z) :
  Forall Z.prime table -> Forall (fun p => 2 <= p) table.
Proof. intros Hp. eapply Forall_impl; [exact Hp|]. exact Z.prime_ge_2. Qed.

Lemma factors_in_abs (table : list Z) (target : Z) :
  factors_in table target -> factors_in table (Z.abs target).
Proof. intros H p Hp Hd. apply H; [exact Hp | apply Z.divide_abs_r, Hd]. Qed.

(** The decomposition of 1 and of -1: the shortcut [pr**2 > N] fires at the
    first element of the table and records the cofactor 1. *)
Lemma decomposition_unit (table : list Z) (target : Z) :
  Forall (fun p => 2 <= p) table -> Z.abs target = 1 ->
  primeDecomposition table target =
  Some (match table with [] => ∅ | _ :: _ => {[1 := 1]} end).
Proof.
  intros Htab Habs. unfold primeDecomposition.
  destruct (Z.eqb_spec target 0) as [|_]; [lia|]. rewrite Habs.
  destruct table as [|pr rest]; [reflexivity|]. cbn [trial].
  apply Forall_cons_1 in Htab as [Hpr _].
  destruct (Z.gtb_spec (pr ^ 2) 1) as [_ | Hsq]; [|nia].
  rewrite insert_empty. reflexivity.
Qed.

Lemma decomposition_primes (table : list Z) (target : Z) :
  ascending_primes table -> factors_in table target -> 1 < Z.abs target ->
  exists d,
    primeDecomposition table target = Some d /\
    product d = Z.abs target /\
    (forall k v, d !! k = Some v -> Z.prime k /\ 1 <= v).
Proof.
  intros Hasc Hfac Habs.
  destruct (decomposition_product table target (ascending_ge2 _ Hasc) Hfac)
    as (d & Ed & Hprod).
  exists d. split; [exact Ed|]. split; [exact Hprod|].
  unfold primeDecomposition in Ed.
  destruct (Z.eqb_spec target 0) as [|_]; [lia|].
  destruct (trial_prime_keys table (Z.abs target) ∅ Hasc Habs)
    as (d' & Ed' & Hkeys).
  - intros q Hq Hd. apply Hfac; [exact Hq | apply Z.divide_abs_r, Hd].
  - apply decomp_inv_empty.
  - rewrite Ed in Ed'. injection Ed' as <-. exact Hkeys.
Qed.

Lemma decomposition_keys (table : list Z) (target : Z) :
  ascending_primes table -> factors_in table target ->
  exists d,
    primeDecomposition table target = Some d /\
    product d = Z.abs target /\
    (forall k v, d !! k = Some v -> (Z.prime k \/ k = 1) /\ 0 <= v).
Proof.
  intros Hasc Hfac. pose proof (factors_in_nonzero _ _ Hfac) as Hnz.
  destruct (Z.eq_dec (Z.abs target) 1) as [Habs | Habs].
  - rewrite (decomposition_unit table target (ascending_ge2 _ Hasc) Habs).
    eexists. split; [reflexivity|]. rewrite Habs.
    destruct table as [|pr rest].
    + split; [apply product_empty|]. intros k v Hk.
      rewrite lookup_empty in Hk. discriminate.
    + split.
      * rewrite <- insert_empty, product_insert, product_empty by apply lookup_empty.
        reflexivity.
      * intros k v Hk. apply lookup_singleton_Some in Hk as [<- <-].
        split; [right; reflexivity | lia].
  - destruct (decomposition_primes table target Hasc Hfac ltac:(lia))
      as (d & Ed & Hprod & Hkeys).
    exists d. split; [exact Ed|]. split; [exact Hprod|].
    intros k v Hk. destruct (Hkeys k v Hk). split; [left; assumption | lia].
Qed.

Lemma divisors_spec (table : list Z) (target : Z) (proper : bool) :
  ascending_primes table -> factors_in table target ->
  exists S : gset Z,
    (forall x, x ∈ S <-> 0 < x /\ (x | target)) /\
    divisors table target proper =
    Some (merge_sort Z.le
            (elements (if proper then S ∖ {[1; Z.abs target]} else S))).
Proof.
  intros Hasc Hfac. pose proof (factors_in_nonzero _ _ Hfac) as Hnz.
  destruct (decomposition_keys table (Z.abs target) Hasc (factors_in_abs _ _ Hfac))
    as (d & Ed & Hprod & Hkeys).
  rewrite Z.abs_idemp in Hprod.
  exists (divisor_set d). split.
  - intros x. rewrite (divisor_set_spec d Hkeys x), Hprod, Z.divide_abs_r.
    reflexivity.
  - unfold divisors. destruct (Z.eqb_spec target 0) as [|_]; [contradiction|].
    cbn zeta. rewrite Ed. reflexivity.
Qed.

Lemma positive_divisors_enum (n d : Z) :
  0 < n ->
  0 < d /\ (d | n) <-> In d (List.filter (fun d => n mod d =? 0) (seqZ 1 n)).
Proof.
  intros Hn. rewrite filter_In, <- list_elem_of_In, elem_of_seqZ, Z.eqb_eq.
  split.
  - intros [Hd Hdiv]. pose proof (Z.divide_pos_le d n Hn Hdiv).
    split; [lia|]. apply Z.mod_divide; [lia | exact Hdiv].
  - intros [Hd Hmod]. split; [lia|]. apply Z.mod_divide; [lia | exact Hmod].
Qed.

(** ** The table that [genPrimes] produces *)

Lemma sorted_lt_NoDup (l : list Z) : StronglySorted Z.lt l -> NoDup l.
Proof.
  intros Hs. induction Hs as [|x l Hs IH Hall]; constructor; [|exact IH].
  intros Hx. rewrite Forall_forall in Hall. specialize (Hall x Hx). lia.
Qed.

Lemma genPrimes_table (N : Z) (table : list Z) :
  5 < N -> genPrimes N = Some table ->
  ascending_primes table /\ complete_upto table (N - 1).
Proof.
  intros HN E. destruct (genPrimes_spec N HN) as (l & El & Hs & Hmem).
  rewrite E in El. injection El as <-. split; [split; [exact Hs|] |].
  - apply Forall_forall. intros p Hp. apply list_elem_of_In, Hmem in Hp. tauto.
  - intros p Hp Hle. apply Hmem. split; [exact Hp | lia].
Qed.

Lemma small_factors_in (table : list Z) (M target : Z) :
  complete_upto table M -> target <> 0 -> Z.abs target <= M ->
  factors_in table target.
Proof.
  intros Hc Hnz Hle p Hp Hd. apply Hc; [exact Hp|].
  apply Z.divide_abs_r in Hd. apply Z.divide_pos_le in Hd; lia.
Qed.

(** An ascending table holding the primes up to a bound of at least 5 starts
    with 2, 3, 5. *)
Lemma table_prefix (table : list Z) (M : Z) :
  ascending_primes table -> complete_upto table M -> 5 <= M ->
  exists rest, table = 2 :: 3 :: 5 :: rest.
Proof.
  intros [Hs Hp] Hc HM.
  assert (P5 : Z.prime 5) by (apply prime_check_sound; reflexivity).
  pose proof (Hc 2 Z.prime_2 ltac:(lia)) as H2.
  pose proof (Hc 3 Z.prime_3 ltac:(lia)) as H3.
  pose proof (Hc 5 P5 ltac:(lia)) as H5.
  assert (N4 : ~ Z.prime 4) by (apply (Z.not_prime_square 2)).
  destruct table as [|a table]; [destruct H2|].
  apply Forall_cons_1 in Hp as [Pa Hp]. apply StronglySorted_inv in Hs as [Hs Ha].
  pose proof (Z.prime_ge_2 a Pa). rewrite Forall_forall in Ha.
  assert (a = 2).
  { destruct H2 as [E | Hin]; [exact E|]. apply list_elem_of_In, Ha in Hin. lia. }
  subst a. destruct H3 as [|H3]; [lia|]. destruct H5 as [|H5]; [lia|].
  destruct table as [|b table]; [destruct H3|].
  apply Forall_cons_1 in Hp as [Pb Hp]. apply StronglySorted_inv in Hs as [Hs Hb].
  assert (2 < b) by (apply Ha; left). rewrite Forall_forall in Hb.
  assert (b = 3).
  { destruct H3 as [E | Hin]; [exact E|]. apply list_elem_of_In, Hb in Hin. lia. }
  subst b. destruct H5 as [|H5]; [lia|].
  destruct table as [|c table]; [destruct H5|].
  apply Forall_cons_1 in Hp as [Pc Hp]. apply StronglySorted_inv in Hs as [Hs Hcc].
  assert (3 < c) by (apply Hb; left). rewrite Forall_forall in Hcc.
  assert (c = 5).
  { destruct H5 as [E | Hin]; [exact E|]. apply list_elem_of_In, Hcc in Hin.
    assert (c = 4) by lia. subst c. contradiction. }
  subst c. exists table. reflexivity.
Qed.

(** ** The certificate *)

Lemma certificate_value (table : list Z) (target : Z) (d : gmap Z Z) :
  primeDecomposition table target = Some d ->
  certify_decomposition table target = Some (Z.abs target =? product d) /\
  decompCertificate table target None = Some (Z.abs target =? product d).
Proof.
  intros E. unfold certify_decomposition, decompCertificate. rewrite E.
  destruct (decide (d = ∅)); rewrite ?E; auto.
Qed.

Lemma certificate_supplied (table : list Z) (target : Z) (d : gmap Z Z) :
  d <> ∅ ->
  decompCertificate table target (Some d) = Some (Z.abs target =? product d).
Proof.
  intros Hd. unfold decompCertificate. destruct (decide (d = ∅)); [contradiction|].
  reflexivity.
Qed.

(** A prime above the square of every element of the table is not divided
    by any of them and never meets the shortcut: the loop leaves the
    decomposition as it was. *)
Lemma trial_large_prime (primes : list Z) (N : Z) (c : gmap Z Z) :
  Z.prime N -> Forall (fun p => 2 <= p /\ p ^ 2 < N) primes ->
  trial primes N c = Some c.
Proof.
  intros HN. pose proof (prime_gt1 N HN) as HN1.
  induction primes as [|pr rest IH]; intros Htab; [reflexivity|].
  apply Forall_cons_1 in Htab as [[Hpr Hsq] Htab]. cbn [trial].
  destruct (Z.gtb_spec (pr ^ 2) N) as [|_]; [lia|].
  destruct (Z.eqb_spec pr 0) as [|_]; [lia|].
  assert (Hmod : N mod pr <> 0).
  { intros Hmod. apply Z.mod_divide in Hmod; [|lia].
    destruct (Z.divide_prime_r pr N HN Hmod) as [E | [E | [E | E]]]; nia. }
  assert (Ediv : divide_out (Z.to_nat (Z.abs N)) pr N c = Some (N, c)).
  { destruct (Z.to_nat (Z.abs N)); cbn [divide_out];
      destruct (Z.eqb_spec (N mod pr) 0); congruence. }
  rewrite Ediv. destruct (Z.eqb_spec N 1) as [|_]; [lia|]. apply IH, Htab.
Qed.

Lemma trial_step (pr : Z) (rest : list Z) (N N' : Z) (c c' : gmap Z Z) :
  (pr ^ 2 >? N) = false -> (pr =? 0) = false ->
  divide_out (Z.to_nat (Z.abs N)) pr N c = Some (N', c') ->
  (N' =? 1) = false ->
  trial (pr :: rest) N c = trial rest N' c'.
Proof. intros H1 H2 H3 H4. cbn [trial]. rewrite H1, H2, H3, H4. reflexivity. Qed.

Lemma trial_shortcut (pr : Z) (rest : list Z) (N : Z) (c : gmap Z Z) :
  (pr ^ 2 >? N) = true -> trial (pr :: rest) N c = Some (<[N := 1]> c).
Proof. intros H1. cbn [trial]. rewrite H1. reflexivity. Qed.

Lemma decomposition_360 (rest : list Z) :
  primeDecomposition (2 :: 3 :: 5 :: rest) 360 =
  Some {[2 := 3; 3 := 2; 5 := 1]}.
Proof.
  change (primeDecomposition (2 :: 3 :: 5 :: rest) 360)
    with (trial (2 :: 3 :: 5 :: rest) 360 ∅).
  rewrite (trial_step 2 _ 360 45 ∅ {[2 := 3]}) by (vm_compute; reflexivity).
  rewrite (trial_step 3 _ 45 5 {[2 := 3]} {[2 := 3; 3 := 2]})
    by (vm_compute; reflexivity).
  rewrite trial_shortcut by reflexivity.
  vm_compute. reflexivity.
Qed.

(** * The claims *)

(** C1. For every bound [N > 5], [genPrimes N] returns a strictly ascending,
    duplicate-free list whose elements are exactly the primes in [[2, N)]:
    every element is prime and below [N], and no prime below [N] is missing.
    [genPrimes 50] is the list of the fifteen primes below 50. *)
Theorem genPrimes_correct :
  (forall N, 5 < N ->
     exists primes,
       genPrimes N = Some primes /\
       StronglySorted Z.lt primes /\ NoDup primes /\
       (forall p, In p primes <-> Z.prime p /\ 2 <= p < N)) /\
  genPrimes 50 = Some [2; 3; 5; 7; 11; 13; 17; 19; 23; 29; 31; 37; 41; 43; 47].
Proof.
  split; [|vm_compute; reflexivity].
  intros N HN. destruct (genPrimes_spec N HN) as (primes & E & Hs & Hmem).
  exists primes. split; [exact E|]. split; [exact Hs|].
  split; [apply sorted_lt_NoDup, Hs|].
  intros p. rewrite Hmem. split.
  - intros [Hp Hlt]. pose proof (Z.prime_ge_2 p Hp). auto with zarith.
  - intros [Hp Hlt]. split; [exact Hp | lia].
Qed.

Lemma genPrimes_correct_witness :
  5 < 100 /\
  exists primes,
    genPrimes 100 = Some primes /\
    StronglySorted Z.lt primes /\ NoDup primes /\
    (forall p, In p primes <-> Z.prime p /\ 2 <= p < 100).
Proof. split; [lia | apply (proj1 genPrimes_correct 100); lia]. Defined.

(** The table [genPrimes 8], on which the statements below are tried. *)
Lemma small_table :
  ascending_primes [2; 3; 5; 7] /\ complete_upto [2; 3; 5; 7] 7.
Proof. apply (genPrimes_table 8); [lia | vm_compute; reflexivity]. Qed.

Lemma small_table_max : table_max [2; 3; 5; 7] 7.
Proof. split; [cbn; tauto | repeat constructor; lia]. Qed.

(** C2. When every prime factor of [target] is in the table (and the square
    root of [|target|] is at most the square of the table's maximum [M]),
    [decompCertificate(target, primeDecomposition(target))] is true.  The
    root of [|target|] is at most the integer [M^2] exactly when its integer
    part [Z.sqrt] is. *)
Theorem certificate_within_table (table : list Z) (M target : Z) :
  Forall Z.prime table -> table_max table M ->
  factors_in table target -> Z.sqrt (Z.abs target) <= M ^ 2 ->
  certify_decomposition table target = Some true.
Proof.
  intros Hp _ Hfac _.
  destruct (decomposition_product table target (primes_ge2 _ Hp) Hfac)
    as (d & Ed & Hprod).
  destruct (certificate_value table target d Ed) as [-> _].
  rewrite Hprod, Z.eqb_refl. reflexivity.
Qed.

Lemma certificate_within_table_witness :
  Forall Z.prime [2; 3; 5; 7] /\ table_max [2; 3; 5; 7] 7 /\
  factors_in [2; 3; 5; 7] (-6) /\ Z.sqrt (Z.abs (-6)) <= 7 ^ 2 /\
  certify_decomposition [2; 3; 5; 7] (-6) = Some true.
Proof.
  destruct small_table as [[Hs Hp] Hc].
  assert (Hfac : factors_in [2; 3; 5; 7] (-6))
    by (apply (small_factors_in _ 7); [exact Hc | lia | cbn; lia]).
  assert (Hsqrt : Z.sqrt (Z.abs (-6)) <= 7 ^ 2) by (vm_compute; discriminate).
  split; [exact Hp|]. split; [exact small_table_max|].
  split; [exact Hfac|]. split; [exact Hsqrt|].
  exact (certificate_within_table [2; 3; 5; 7] 7 (-6) Hp small_table_max Hfac Hsqrt).
Defined.

(** C3, as stated, fails: with the table 2, 3, 5, 7 the largest prime factor
    of 11 exceeds 7, yet the shortcut [5**2 > 11] records 11 and the
    certificate is true. *)
Lemma certificate_false_counterexample :
  ~ (certify_decomposition [2; 3; 5; 7] 11 = Some false <->
     (Z.prime 11 /\ 7 ^ 2 < 11) \/
     (exists q, Z.prime q /\ (q | 11) /\ 7 < q)).
Proof.
  intros [_ H].
  assert (E : certify_decomposition [2; 3; 5; 7] 11 = Some false).
  { apply H. right. exists 11.
    split; [apply prime_check_sound; reflexivity|].
    split; [apply Z.divide_refl | lia]. }
  vm_compute in E. discriminate E.
Qed.

(** C3, amended.  For a nonzero [target] and a table holding exactly the
    primes up to its maximum [M]: when the certificate of
    [primeDecomposition(target)] is false, some prime factor of [target]
    (hence the largest) exceeds [M]; and when [target] is prime and exceeds
    [M^2], the certificate is false. *)
Theorem certificate_false (table : list Z) (M target : Z) :
  Forall Z.prime table -> table_max table M -> complete_upto table M ->
  target <> 0 ->
  (certify_decomposition table target = Some false ->
   exists q, Z.prime q /\ (q | target) /\ M < q) /\
  (Z.prime target -> M ^ 2 < target ->
   certify_decomposition table target = Some false).
Proof.
  intros Hp [_ Hmax] Hc Hnz. split.
  - intros Hcert.
    destruct (trial_outcome table (Z.abs target) ∅ (primes_ge2 _ Hp) ltac:(lia)
                (decomp_inv_empty _ _)) as (d & Ed & Hout).
    assert (Ed' : primeDecomposition table target = Some d).
    { unfold primeDecomposition. destruct (Z.eqb_spec target 0); [contradiction | exact Ed]. }
    destruct (certificate_value table target d Ed') as [Ecert _].
    rewrite Ecert in Hcert. injection Hcert as Hneq. apply Z.eqb_neq in Hneq.
    rewrite product_empty in Hout.
    destruct Hout as [Hout | (N' & Hgt & Hdiv & _ & Hnone)]; [lia|].
    destruct (prime_factor N' Hgt) as (q & Hq & Hq').
    exists q. split; [exact Hq|].
    split; [apply Z.divide_abs_r; eapply Z.divide_trans; eassumption|].
    destruct (Z_lt_le_dec M q) as [Hlt | Hle]; [exact Hlt | exfalso].
    rewrite Forall_forall in Hnone.
    apply (Hnone q); [apply list_elem_of_In, Hc; assumption | exact Hq'].
  - intros Hprime Hbig. pose proof (prime_gt1 target Hprime) as H1.
    assert (Ed : primeDecomposition table target = Some ∅).
    { unfold primeDecomposition. destruct (Z.eqb_spec target 0); [contradiction|].
      rewrite Z.abs_eq by lia. apply trial_large_prime; [exact Hprime|].
      rewrite Forall_forall in Hp, Hmax |- *. intros p Hin.
      pose proof (Z.prime_ge_2 p (Hp p Hin)). specialize (Hmax p Hin).
      split; [lia | nia]. }
    destruct (certificate_value table target ∅ Ed) as [-> _].
    rewrite product_empty. f_equal. apply Z.eqb_neq. lia.
Qed.

Lemma certificate_false_witness :
  Forall Z.prime [2; 3; 5; 7] /\ table_max [2; 3; 5; 7] 7 /\
  complete_upto [2; 3; 5; 7] 7 /\ 53 <> 0 /\ Z.prime 53 /\ 7 ^ 2 < 53 /\
  certify_decomposition [2; 3; 5; 7] 53 = Some false /\
  exists q, Z.prime q /\ (q | 53) /\ 7 < q.
Proof.
  destruct small_table as [[Hs Hp] Hc]. pose proof small_table_max as Hmax.
  assert (Hnz : 53 <> 0) by lia.
  assert (H53 : Z.prime 53) by (apply prime_check_sound; vm_compute; reflexivity).
  assert (Hbig : 7 ^ 2 < 53) by (vm_compute; reflexivity).
  destruct (certificate_false [2; 3; 5; 7] 7 53 Hp Hmax Hc Hnz)
    as [Hfalse Hlarge].
  pose proof (Hlarge H53 Hbig) as Hcert.
  repeat (split; [assumption|]). exact (Hfalse Hcert).
Defined.

(** C4.  [decompCertificate(6, {})] is true although the product over the
    empty mapping is 1: the empty mapping is falsy, so the certificate is
    computed for [primeDecomposition(6)] instead of the mapping supplied. *)
Theorem certificate_empty_supplied :
  decompCertificate [2; 3; 5; 7] 6 (Some ∅) = Some true /\
  product ∅ <> Z.abs 6.
Proof. split; [vm_compute; reflexivity | rewrite product_empty; discriminate]. Qed.

(** C5. [primeDecomposition(0)] is empty, and with a table holding the primes
    up to a bound of at least 5, [primeDecomposition(360)] is
    [{2: 3, 3: 2, 5: 1}]. *)
Theorem decomposition_examples :
  (forall table, primeDecomposition table 0 = Some ∅) /\
  (forall table M,
     ascending_primes table -> complete_upto table M -> 5 <= M ->
     primeDecomposition table 360 = Some {[2 := 3; 3 := 2; 5 := 1]}).
Proof.
  split; [reflexivity|]. intros table M Hasc Hc HM.
  destruct (table_prefix table M Hasc Hc HM) as [rest ->].
  apply decomposition_360.
Qed.

Lemma decomposition_examples_witness :
  ascending_primes [2; 3; 5; 7] /\ complete_upto [2; 3; 5; 7] 7 /\ 5 <= 7 /\
  primeDecomposition [2; 3; 5; 7] 360 = Some {[2 := 3; 3 := 2; 5 := 1]}.
Proof.
  destruct small_table as [Hasc Hc]. assert (H57 : 5 <= 7) by lia.
  repeat (split; [assumption|]).
  exact (proj2 decomposition_examples [2; 3; 5; 7] 7 Hasc Hc H57).
Defined.

(** C6. With an ascending table of primes that holds every prime factor of a
    nonzero [target], [divisors(target)] is the strictly ascending list of
    the positive divisors of [target], 1 and [|target|] among them, and
    [divisors(target, proper=True)] is that list without 1 and [|target|];
    [divisors(0, proper)] is empty.  In particular [divisors(36)],
    [divisors(36, proper=True)] and [divisors(7, proper=True)] are the lists
    of the docstring. *)
Theorem divisors_correct (table : list Z) :
  ascending_primes table ->
  (forall target, target <> 0 -> factors_in table target ->
     exists l,
       divisors table target false = Some l /\
       StronglySorted Z.lt l /\
       (forall d, In d l <-> 0 < d /\ (d | Z.abs target)) /\
       In 1 l /\ In (Z.abs target) l /\
       divisors table target true =
       Some (filter (fun d => d <> 1 /\ d <> Z.abs target) l)) /\
  (forall proper, divisors table 0 proper = Some []) /\
  (factors_in table 36 ->
   divisors table 36 false = Some [1; 2; 3; 4; 6; 9; 12; 18; 36] /\
   divisors table 36 true = Some [2; 3; 4; 6; 9; 12; 18]) /\
  (factors_in table 7 -> divisors table 7 true = Some []).
Proof.
  intros Hasc.
  assert (Hgen : forall target, target <> 0 -> factors_in table target ->
            exists l,
              divisors table target false = Some l /\
              StronglySorted Z.lt l /\
              (forall d, In d l <-> 0 < d /\ (d | Z.abs target)) /\
              In 1 l /\ In (Z.abs target) l /\
              divisors table target true =
              Some (filter (fun d => d <> 1 /\ d <> Z.abs target) l)).
  { intros target Hnz Hfac.
    destruct (divisors_spec table target false Hasc Hfac) as (S & HS & E).
    destruct (divisors_spec table target true Hasc Hfac) as (S' & HS' & E').
    assert (S' = S) by (apply set_eq; intros x; rewrite HS, HS'; reflexivity).
    subst S'.
    destruct (sorted_elements S) as [Hs Hm].
    destruct (sorted_elements (S ∖ {[1; Z.abs target]})) as [Hs' Hm'].
    exists (merge_sort Z.le (elements S)).
    split; [exact E|]. split; [exact Hs|].
    split; [intros d; rewrite Hm, Z.divide_abs_r; apply HS|].
    split; [apply Hm, HS; split; [lia | apply Z.divide_1_l]|].
    split; [apply Hm, HS; split; [lia | apply Z.divide_abs_l, Z.divide_refl]|].
    rewrite E'. f_equal.
    apply sorted_lt_unique; [exact Hs' | apply sorted_filter, Hs|].
    intros x.
    rewrite Hm', <- list_elem_of_In, list_elem_of_filter, list_elem_of_In, Hm.
    rewrite elem_of_difference, elem_of_union, !elem_of_singleton. tauto. }
  split; [exact Hgen|]. split; [reflexivity|]. split.
  - intros Hfac.
    destruct (Hgen 36 ltac:(lia) Hfac) as (l & E & Hs & Hm & _ & _ & E').
    assert (l = [1; 2; 3; 4; 6; 9; 12; 18; 36]).
    { apply sorted_lt_unique; [exact Hs | repeat constructor|].
      intros d. rewrite Hm, (positive_divisors_enum 36 d) by lia. reflexivity. }
    subst l. split; [exact E|]. rewrite E'. reflexivity.
  - intros Hfac.
    destruct (Hgen 7 ltac:(lia) Hfac) as (l & E & Hs & Hm & _ & _ & E').
    assert (l = [1; 7]).
    { apply sorted_lt_unique; [exact Hs | repeat constructor|].
      intros d. rewrite Hm, (positive_divisors_enum 7 d) by lia. reflexivity. }
    subst l. rewrite E'. reflexivity.
Qed.

Lemma divisors_correct_witness :
  ascending_primes [2; 3; 5; 7] /\ -6 <> 0 /\ factors_in [2; 3; 5; 7] (-6) /\
  exists l,
    divisors [2; 3; 5; 7] (-6) false = Some l /\
    StronglySorted Z.lt l /\
    (forall d, In d l <-> 0 < d /\ (d | Z.abs (-6))) /\
    In 1 l /\ In (Z.abs (-6)) l /\
    divisors [2; 3; 5; 7] (-6) true =
    Some (filter (fun d => d <> 1 /\ d <> Z.abs (-6)) l).
Proof.
  destruct small_table as [Hasc Hc].
  assert (Hnz : -6 <> 0) by lia.
  assert (Hfac : factors_in [2; 3; 5; 7] (-6))
    by (apply (small_factors_in _ 7); [exact Hc | lia | cbn; lia]).
  repeat (split; [assumption|]).
  exact (proj1 (divisors_correct [2; 3; 5; 7] Hasc) (-6) Hnz Hfac).
Defined.

(** C7.  [primeDecomposition(1)] and [primeDecomposition(-1)] record the key
    1, which is not a prime: at the shortcut [pr**2 > N] the cofactor is
    recorded without the test [N > 1]. *)
Theorem decomposition_of_unit (rest : list Z) :
  primeDecomposition (2 :: rest) 1 = Some {[1 := 1]} /\
  primeDecomposition (2 :: rest) (-1) = Some {[1 := 1]} /\
  ~ Z.prime 1.
Proof. split; [reflexivity|]. split; [reflexivity | exact Z.not_prime_1]. Qed.

(** For every other nonzero target within the table, the keys are primes and
    the multiplicities positive. *)
Lemma decomposition_keys_prime (table : list Z) (target : Z) :
  ascending_primes table -> factors_in table target -> 1 < Z.abs target ->
  exists d,
    primeDecomposition table target = Some d /\
    (forall k v, d !! k = Some v -> Z.prime k /\ 1 <= v).
Proof.
  intros Hasc Hfac Habs.
  destruct (decomposition_primes table target Hasc Hfac Habs) as (d & E & _ & H).
  exists d. auto.
Qed.

(** C8, as stated, fails: [genPrimes(3)] returns 2, 3 without any error,
    and 3 is not below 3. *)
Lemma genPrimes_small_counterexample :
  ~ (genPrimes 3 = None \/
     exists primes,
       genPrimes 3 = Some primes /\
       forall p, In p primes <-> Z.prime p /\ p < 3).
Proof.
  intros [E | (primes & E & Hmem)]; [vm_compute in E; discriminate E|].
  vm_compute in E. injection E as <-.
  destruct (proj1 (Hmem 3) (or_intror (or_introl eq_refl))) as [_ H]. lia.
Qed.

(** C8, amended.  For a positive bound [N <= 5], [genPrimes N] raises no
    error and returns 2, 3; these are the primes below [N] exactly when
    [N] is 4 or 5. *)
Theorem genPrimes_small (N : Z) :
  1 <= N <= 5 ->
  genPrimes N = Some [2; 3] /\
  ((forall p, In p [2; 3] <-> Z.prime p /\ p < N) <-> 4 <= N).
Proof.
  intros HN. split.
  - assert (C : N = 1 \/ N = 2 \/ N = 3 \/ N = 4 \/ N = 5) by lia.
    destruct C as [-> | [-> | [-> | [-> | ->]]]]; vm_compute; reflexivity.
  - split.
    + intros Hmem.
      destruct (proj1 (Hmem 3) (or_intror (or_introl eq_refl))) as [_ H]. lia.
    + intros H4 p. cbn [In]. split.
      * intros [<- | [<- | []]]; (split; [|lia]); [exact Z.prime_2 | exact Z.prime_3].
      * intros [Hp Hlt]. pose proof (Z.prime_ge_2 p Hp).
        assert (C : p = 2 \/ p = 3 \/ p = 4) by lia.
        destruct C as [-> | [-> | ->]]; [auto | auto |].
        destruct (Z.not_prime_square 2 Hp).
Qed.

Lemma genPrimes_small_witness :
  1 <= 3 <= 5 /\
  genPrimes 3 = Some [2; 3] /\
  ((forall p, In p [2; 3] <-> Z.prime p /\ p < 3) <-> 4 <= 3).
Proof.
  assert (H : 1 <= 3 <= 5) by lia. split; [exact H | exact (genPrimes_small 3 H)].
Defined.

(** C9. [expOverOne(target)] is [primeDecomposition(target)] restricted to
    the entries of multiplicity above 1 (and fails when the decomposition
    does); with a table holding the primes up to a bound of at least 5,
    [expOverOne(360)] is [{2: 3, 3: 2}]. *)
Theorem expOverOne_restricts (table : list Z) :
  (forall target d,
     primeDecomposition table target = Some d ->
     exists e,
       expOverOne table target = Some e /\
       forall p m, e !! p = Some m <-> d !! p = Some m /\ 1 < m) /\
  (forall target,
     primeDecomposition table target = None -> expOverOne table target = None) /\
  (forall M,
     ascending_primes table -> complete_upto table M -> 5 <= M ->
     expOverOne table 360 = Some {[2 := 3; 3 := 2]}).
Proof.
  split; [|split].
  - intros target d E. unfold expOverOne. rewrite E. eexists. split; [reflexivity|].
    intros p m. apply (map_lookup_filter_Some (fun pm : Z * Z => 1 < pm.2)).
  - intros target E. unfold expOverOne. rewrite E. reflexivity.
  - intros M Hasc Hc HM. destruct (table_prefix table M Hasc Hc HM) as [rest ->].
    unfold expOverOne. rewrite decomposition_360. vm_compute. reflexivity.
Qed.

Lemma expOverOne_restricts_witness :
  primeDecomposition [2; 3; 5; 7] 360 = Some {[2 := 3; 3 := 2; 5 := 1]} /\
  exists e,
    expOverOne [2; 3; 5; 7] 360 = Some e /\
    forall p m,
      e !! p = Some m <->
      ({[2 := 3; 3 := 2; 5 := 1]} : gmap Z Z) !! p = Some m /\ 1 < m.
Proof.
  assert (E : primeDecomposition [2; 3; 5; 7] 360 = Some {[2 := 3; 3 := 2; 5 := 1]})
    by (vm_compute; reflexivity).
  split; [exact E | exact (proj1 (expOverOne_restricts [2; 3; 5; 7]) 360 _ E)].
Defined.

(** C10. The empty decomposition of zero never certifies: both
    [decompCertificate(0)] and [decompCertificate(0, {})] are false, the
    empty product being 1. *)
Theorem certificate_zero (table : list Z) :
  decompCertificate table 0 None = Some false /\
  decompCertificate table 0 (Some ∅) = Some false.
Proof. split; reflexivity. Qed.

(** * Further properties of the sieve *)

(** X1. The two conversions of the sieve, position to integer [(3*i+1)|1]
    and integer to position [v//3], are inverse to each other between the
    positions [i >= 0] and the non-negative integers prime to 6. *)
Theorem value_position_inverse :
  (forall i, 0 <= i -> coprime6 (value i) /\ 0 <= value i /\ value i / 3 = i) /\
  (forall v, 0 <= v -> coprime6 v -> 0 <= v / 3 /\ value (v / 3) = v).
Proof.
  split.
  - intros i Hi. split; [apply value_coprime6, Hi|].
    split; [rewrite value_eq by lia; euclid | apply value_div3, Hi].
  - intros v Hv Hc. split; [apply Z.div_pos; lia | apply value_of_div3; assumption].
Qed.

Lemma value_position_inverse_witness :
  0 <= 8 /\ coprime6 (value 8) /\ 0 <= value 8 /\ value 8 / 3 = 8.
Proof.
  assert (H : 0 <= 8) by lia.
  split; [exact H | exact (proj1 value_position_inverse 8 H)].
Defined.

(** X2. For every negative bound the length [N//3 + (N%6==2)] of the sieve
    array is negative, and [genPrimes] raises. *)
Theorem genPrimes_negative (N : Z) : N < 0 -> genPrimes N = None.
Proof.
  intros HN. unfold genPrimes, genPrimes_from.
  assert (Hsz : N / 3 + (if N mod 6 =? 2 then 1 else 0) < 0).
  { destruct (Z.eqb_spec (N mod 6) 2); euclid. }
  destruct (Z.ltb_spec (N / 3 + (if N mod 6 =? 2 then 1 else 0)) 0); [reflexivity | lia].
Qed.

Lemma genPrimes_negative_witness : -4 < 0 /\ genPrimes (-4) = None.
Proof.
  assert (H : -4 < 0) by lia. split; [exact H | exact (genPrimes_negative (-4) H)].
Defined.

(** X3. The table for a bound is the part below that bound of the table for
    any larger bound. *)
Theorem genPrimes_prefix (N N' : Z) :
  5 < N -> N <= N' ->
  exists primes primes',
    genPrimes N = Some primes /\ genPrimes N' = Some primes' /\
    primes = filter (fun p => p < N) primes'.
Proof.
  intros HN HN'.
  destruct (genPrimes_spec N HN) as (l & E & Hs & Hm).
  destruct (genPrimes_spec N' ltac:(lia)) as (l' & E' & Hs' & Hm').
  exists l, l'. split; [exact E|]. split; [exact E'|].
  apply sorted_lt_unique; [exact Hs | apply sorted_filter, Hs'|].
  intros p. rewrite Hm. rewrite <- list_elem_of_In, list_elem_of_filter.
  rewrite list_elem_of_In, Hm'. split; [intros [Hp Hlt] | tauto].
  split; [exact Hlt|]. split; [exact Hp | lia].
Qed.

Lemma genPrimes_prefix_witness :
  5 < 20 /\ 20 <= 50 /\
  exists primes primes',
    genPrimes 20 = Some primes /\ genPrimes 50 = Some primes' /\
    primes = filter (fun p => p < 20) primes'.
Proof.
  assert (H1 : 5 < 20) by lia. assert (H2 : 20 <= 50) by lia.
  split; [exact H1|]. split; [exact H2 | exact (genPrimes_prefix 20 50 H1 H2)].
Defined.

(** * Further properties of the factorization *)

(** The loop over the table, for any table of integers from 2 on: it ends,
    and leaves out a cofactor [r] that no element of the table divides
    unless it is 1. *)
Lemma trial_partial (primes : list Z) : forall N c,
  Forall (fun p => 2 <= p) primes -> 1 <= N ->
  decomp_inv (fun k => 1 <= k) N c ->
  exists d r,
    trial primes N c = Some d /\
    1 <= r /\ (r | N) /\ product d * r = N * product c /\
    (1 < r -> Forall (fun p => ~ (p | r)) primes) /\
    (forall k v, d !! k = Some v -> 1 <= k /\ 1 <= v).
Proof.
  induction primes as [|pr rest IH]; intros N c Htab HN Hinv; cbn [trial].
  - exists c, N. split; [reflexivity|]. split; [exact HN|].
    split; [apply Z.divide_refl|]. split; [lia|].
    split; [constructor|]. intros k v Hk. destruct (Hinv k v Hk) as (? & ? & _). auto.
  - apply Forall_cons_1 in Htab as [Hpr Htab].
    destruct (Z.gtb_spec (pr ^ 2) N) as [Hsq | Hsq].
    { exists (<[N := 1]> c), 1. split; [reflexivity|]. split; [lia|].
      split; [apply Z.divide_1_l|]. split.
      { rewrite product_insert by (eapply decomp_inv_fresh, Hinv).
        rewrite Z.pow_1_r. lia. }
      split; [lia|]. intros k v Hk.
      apply lookup_insert_Some in Hk as [[<- <-] | [_ Hk]]; [lia|].
      destruct (Hinv k v Hk) as (? & ? & _). auto. }
    destruct (Z.eqb_spec pr 0) as [|_]; [lia|].
    destruct (divide_out_spec (fun k => 1 <= k) pr Hpr ltac:(cbn beta; lia)
                (Z.to_nat (Z.abs N)) N c)
      as (N' & c' & E & H1 & Hdiv & Hnd & Hprod & Hinv').
    { exact HN. } { lia. } { apply decomp_inv_delete, Hinv. }
    { intros v Hv. destruct (Hinv pr v Hv) as (_ & Hv1 & _). exact Hv1. }
    rewrite E. destruct (Z.eqb_spec N' 1) as [-> | Hne].
    { exists c', 1. split; [reflexivity|]. split; [lia|].
      split; [apply Z.divide_1_l|]. split; [lia|].
      split; [lia|]. intros k v Hk. destruct (Hinv' k v Hk) as (? & ? & _). auto. }
    destruct (IH N' c' Htab H1 Hinv')
      as (d & r & Ed & Hr & Hrdiv & Hprod' & Hnone & Hkeys).
    exists d, r. split; [exact Ed|]. split; [exact Hr|].
    split; [eapply Z.divide_trans; eassumption|]. split; [lia|].
    split; [|exact Hkeys]. intros Hr1. constructor; [|exact (Hnone Hr1)].
    intros D. apply Hnd. eapply Z.divide_trans; eassumption.
Qed.

(** With the ascending table of all the primes up to [M], every key recorded
    is prime, whatever the number: a cofactor met by the shortcut
    [pr**2 > N] has no prime factor below [pr]. *)
Lemma trial_complete_keys (M : Z) (primes : list Z) : forall N c,
  ascending_primes primes -> Forall (fun p => p <= M) primes -> 1 < N ->
  (forall q, Z.prime q -> (q | N) -> In q primes \/ M < q) ->
  decomp_inv Z.prime N c ->
  exists d,
    trial primes N c = Some d /\
    (forall k v, d !! k = Some v -> Z.prime k /\ 1 <= v).
Proof.
  induction primes as [|pr rest IH]; intros N c [Hsort Hprime] Hmax HN Hfac Hinv.
  - exists c. split; [reflexivity|]. intros k v Hk.
    destruct (Hinv k v Hk) as (? & ? & _). auto.
  - cbn [trial]. apply Forall_cons_1 in Hprime as [Hpr Hprime].
    apply Forall_cons_1 in Hmax as [HprM Hmax].
    apply StronglySorted_inv in Hsort as [Hsort Hlt].
    pose proof (Z.prime_ge_2 pr Hpr) as Hpr2.
    destruct (Z.gtb_spec (pr ^ 2) N) as [Hsq | Hsq].
    { eexists. split; [reflexivity|]. intros k v Hk.
      apply lookup_insert_Some in Hk as [[<- <-] | [_ Hk]].
      - split; [|lia].
        destruct (prime_decide N) as [Hp | Hnp]; [exact Hp | exfalso].
        destruct (composite_factor N HN Hnp) as (q & Hq & Hdiv & Hqq).
        pose proof (prime_gt1 q Hq).
        assert (pr <= q).
        { destruct (Hfac q Hq Hdiv) as [[<- | Hin] | Hbig]; [lia | | lia].
          rewrite Forall_forall in Hlt.
          apply list_elem_of_In, Hlt in Hin. lia. }
        nia.
      - destruct (Hinv k v Hk) as (Pk & Hv & _). auto. }
    destruct (Z.eqb_spec pr 0) as [|_]; [lia|].
    destruct (divide_out_spec Z.prime pr Hpr2 Hpr (Z.to_nat (Z.abs N)) N c)
      as (N' & c' & E & H1 & Hdiv & Hnd & Hprod & Hinv').
    { lia. } { lia. } { apply decomp_inv_delete, Hinv. }
    { intros v Hv. destruct (Hinv pr v Hv) as (_ & Hv1 & _). exact Hv1. }
    rewrite E. destruct (Z.eqb_spec N' 1) as [-> | Hne].
    { exists c'. split; [reflexivity|]. intros k v Hk.
      destruct (Hinv' k v Hk) as (Pk & Hv & _). auto. }
    apply IH; [split; assumption | exact Hmax | lia | | exact Hinv'].
    intros q Hq Hq'.
    destruct (Hfac q Hq) as [[<- | Hin] | Hbig];
      [eapply Z.divide_trans; eassumption | contradiction | auto | auto].
Qed.

(** When some element [pr0] of a table of primes has [N <= pr0^2], the loop
    never exhausts the table with a cofactor left. *)
Lemma trial_bounded (primes : list Z) : forall N c,
  Forall Z.prime primes -> (exists pr0, In pr0 primes /\ N <= pr0 ^ 2) ->
  1 <= N -> decomp_inv (fun _ => True) N c ->
  exists d, trial primes N c = Some d /\ product d = N * product c.
Proof.
  induction primes as [|pr rest IH]; intros N c Hprime (pr0 & Hin & Hle) HN Hinv.
  - destruct Hin.
  - cbn [trial]. apply Forall_cons_1 in Hprime as [Hpr Hprime].
    pose proof (Z.prime_ge_2 pr Hpr) as Hpr2.
    destruct (Z.gtb_spec (pr ^ 2) N) as [Hsq | Hsq].
    { eexists. split; [reflexivity|].
      rewrite product_insert by (eapply decomp_inv_fresh, Hinv).
      rewrite Z.pow_1_r. lia. }
    destruct (Z.eqb_spec pr 0) as [|_]; [lia|].
    destruct (divide_out_spec (fun _ => True) pr Hpr2 I (Z.to_nat (Z.abs N)) N c)
      as (N' & c' & E & H1 & Hdiv & Hnd & Hprod & Hinv').
    { lia. } { lia. } { apply decomp_inv_delete, Hinv. }
    { intros v Hv. destruct (Hinv pr v Hv) as (_ & Hv1 & _). exact Hv1. }
    rewrite E. destruct (Z.eqb_spec N' 1) as [-> | Hne].
    { exists c'. split; [reflexivity | lia]. }
    assert (HN' : N' <= N) by (apply Z.divide_pos_le; [lia | exact Hdiv]).
    destruct Hin as [<- | Hin].
    + exfalso. assert (EN : N = pr ^ 2) by lia. subst N.
      destruct (prime_factor N' ltac:(lia)) as (q & Hq & Hq').
      assert (q = pr).
      { apply (Z.divide_prime_pp q pr 2 Hq Hpr ltac:(lia)).
        eapply Z.divide_trans; eassumption. }
      subst q. contradiction.
    + destruct (IH N' c' Hprime) as (d & Ed & Hd); [exists pr0; split; [exact Hin | lia] | lia | exact Hinv' |].
      exists d. split; [exact Ed | lia].
Qed.

(** A prime that divides the product of a decomposition with prime keys is
    one of the keys. *)
Lemma product_prime_factor (d : gmap Z Z) :
  (forall k v, d !! k = Some v -> Z.prime k /\ 1 <= v) ->
  forall q, Z.prime q -> (q | product d) -> is_Some (d !! q).
Proof.
  induction d as [|k v d Hk IH] using map_ind; intros Hwf q Hq Hdiv.
  - rewrite product_empty in Hdiv. pose proof (prime_gt1 q Hq).
    apply Z.divide_1_r_nonneg in Hdiv; lia.
  - rewrite product_insert in Hdiv by exact Hk.
    destruct (Hwf k v (lookup_insert_eq d k v)) as [Pk Hv].
    apply (Z.divide_prime_mul _ _ q Hq) in Hdiv as [Hdiv | Hdiv].
    + destruct (IH) with (q := q) as [w Hw]; [|exact Hq | exact Hdiv|].
      * intros k' v' Hk'. apply (Hwf k' v').
        rewrite lookup_insert_ne; [exact Hk' | congruence].
      * exists w. rewrite lookup_insert_ne; [exact Hw | congruence].
    + assert (q = k) by (apply (Z.divide_prime_pp q k v Hq Pk); [lia | exact Hdiv]).
      subst q. exists v. apply lookup_insert_eq.
Qed.

(** The multiplicity recorded for a key is its exact power in the product. *)
Lemma prime_keys_valuation (d : gmap Z Z) (p m : Z) :
  (forall k v, d !! k = Some v -> Z.prime k /\ 1 <= v) ->
  d !! p = Some m ->
  (p ^ m | product d) /\ ~ (p ^ (m + 1) | product d).
Proof.
  intros Hwf Hp. destruct (Hwf p m Hp) as [Pp Hm].
  pose proof (prime_gt1 p Pp) as Hp1.
  rewrite (product_delete d p m Hp). split; [apply Z.divide_factor_r|].
  intros Hdiv. rewrite Z.pow_add_r, Z.pow_1_r, (Z.mul_comm (p ^ m) p) in Hdiv by lia.
  apply Z.mul_divide_cancel_r in Hdiv; [|apply Z.pow_nonzero; lia].
  destruct (product_prime_factor (delete p d)) with (q := p) as [w Hw];
    [| exact Pp | exact Hdiv |].
  - intros k v Hk. apply lookup_delete_Some in Hk as [_ Hk]. exact (Hwf k v Hk).
  - rewrite lookup_delete_eq in Hw. discriminate.
Qed.

Lemma pow_divide_le (p a b n : Z) :
  0 <= a <= b -> (p ^ b | n) -> (p ^ a | n).
Proof.
  intros Hab Hdiv. apply (Z.divide_trans _ (p ^ b)); [|exact Hdiv].
  exists (p ^ (b - a)). rewrite <- Z.pow_add_r by lia. f_equal. lia.
Qed.

Lemma valuation_unique (p n a b : Z) :
  0 <= a -> 0 <= b ->
  (p ^ a | n) -> ~ (p ^ (a + 1) | n) ->
  (p ^ b | n) -> ~ (p ^ (b + 1) | n) -> a = b.
Proof.
  intros Ha Hb Da Na Db Nb.
  destruct (Z.lt_trichotomy a b) as [Hlt | [E | Hlt]]; [exfalso | exact E | exfalso].
  - apply Na. apply (pow_divide_le p (a + 1) b); [lia | exact Db].
  - apply Nb. apply (pow_divide_le p (b + 1) a); [lia | exact Da].
Qed.

(** A decomposition with prime keys and positive multiplicities that
    multiplies to [n] is the prime factorization of [n]. *)
Lemma prime_keys_exact (d : gmap Z Z) (n : Z) :
  (forall k v, d !! k = Some v -> Z.prime k /\ 1 <= v) ->
  product d = n ->
  forall p m,
    d !! p = Some m <->
    Z.prime p /\ 1 <= m /\ (p ^ m | n) /\ ~ (p ^ (m + 1) | n).
Proof.
  intros Hwf <- p m. split.
  - intros Hp. destruct (Hwf p m Hp) as [Pp Hm].
    destruct (prime_keys_valuation d p m Hwf Hp). auto.
  - intros (Pp & Hm & Hdiv & Hnd).
    destruct (product_prime_factor d Hwf p Pp) as [w Hw].
    { apply (pow_divide_le p 1 m) in Hdiv; [|lia]. rewrite Z.pow_1_r in Hdiv. exact Hdiv. }
    destruct (Hwf p w Hw) as [_ Hw1].
    destruct (prime_keys_valuation d p w Hwf Hw) as [Dw Nw].
    rewrite Hw. f_equal.
    apply (valuation_unique p (product d)); try assumption; lia.
Qed.

(** The decomposition over the ascending table of all the primes up to its
    maximum [M]. *)
Lemma decomposition_complete (table : list Z) (M target : Z) :
  ascending_primes table -> table_max table M -> complete_upto table M ->
  1 < Z.abs target ->
  exists d,
    primeDecomposition table target = Some d /\
    (forall k v, d !! k = Some v -> Z.prime k /\ 1 <= v).
Proof.
  intros Hasc [_ Hmax] Hc Habs. unfold primeDecomposition.
  destruct (Z.eqb_spec target 0) as [|_]; [lia|].
  apply (trial_complete_keys M); [exact Hasc | exact Hmax | exact Habs | |].
  - intros q Hq _. destruct (Z_lt_le_dec M q); [right; assumption | left].
    apply Hc; assumption.
  - apply decomp_inv_empty.
Qed.

Lemma primeDecomposition_abs (table : list Z) (target : Z) :
  primeDecomposition table (Z.abs target) = primeDecomposition table target.
Proof.
  unfold primeDecomposition. rewrite Z.abs_idemp.
  destruct (Z.eqb_spec target 0) as [-> | Hnz]; [reflexivity|].
  destruct (Z.eqb_spec (Z.abs target) 0); [lia | reflexivity].
Qed.

(** What a true certificate says over the table of all the primes up to
    [M]: the decomposition multiplies back to [|target|] and its keys are
    primes (the key 1 for the targets 1 and -1 apart). *)
Lemma certified_decomposition (table : list Z) (M target : Z) :
  ascending_primes table -> table_max table M -> complete_upto table M ->
  target <> 0 -> decompCertificate table target None = Some true ->
  exists d,
    primeDecomposition table target = Some d /\
    product d = Z.abs target /\
    (1 < Z.abs target -> forall k v, d !! k = Some v -> Z.prime k /\ 1 <= v) /\
    (forall k v, d !! k = Some v -> (Z.prime k \/ k = 1) /\ 0 <= v).
Proof.
  intros Hasc Hmax Hc Hnz Hcert.
  assert (Hd : exists d, primeDecomposition table target = Some d /\
                         product d = Z.abs target).
  { destruct (primeDecomposition table target) as [d|] eqn:Ed.
    - exists d. split; [reflexivity|].
      destruct (certificate_value table target d Ed) as [_ E].
      rewrite E in Hcert. injection Hcert as Hcert. apply Z.eqb_eq in Hcert. lia.
    - unfold decompCertificate in Hcert. rewrite Ed in Hcert. discriminate. }
  destruct Hd as (d & Ed & Hprod). exists d. split; [exact Ed|]. split; [exact Hprod|].
  destruct (Z.eq_dec (Z.abs target) 1) as [Habs | Habs].
  - split; [lia|].
    rewrite (decomposition_unit table target (ascending_ge2 _ Hasc) Habs) in Ed.
    injection Ed as <-. intros k v Hk. destruct table as [|pr rest].
    + rewrite lookup_empty in Hk. discriminate.
    + apply lookup_singleton_Some in Hk as [<- <-]. split; [right; reflexivity | lia].
  - destruct (decomposition_complete table M target Hasc Hmax Hc ltac:(lia))
      as (d' & Ed' & Hkeys).
    rewrite Ed in Ed'. injection Ed' as <-. split; [intros _; exact Hkeys|].
    intros k v Hk. destruct (Hkeys k v Hk). split; [left; assumption | lia].
Qed.

(** What the trial divisions leave of [|target|] is a cofactor of the product
    of the recorded prime powers. *)
Lemma decomposition_cofactor (table : list Z) (target : Z) :
  Forall (fun p => 2 <= p) table -> target <> 0 ->
  exists d r,
    primeDecomposition table target = Some d /\ product d * r = Z.abs target.
Proof.
  intros Htab Hnz.
  destruct (trial_partial table (Z.abs target) ∅ Htab ltac:(lia)
              (decomp_inv_empty _ _))
    as (d & r & Ed & _ & _ & Hprod & _).
  rewrite product_empty in Hprod. exists d, r. split; [|lia].
  unfold primeDecomposition. destruct (Z.eqb_spec target 0); [contradiction | exact Ed].
Qed.

(** X4. For any table of integers from 2 on and any nonzero target,
    [primeDecomposition] returns: it neither raises nor loops.  Its
    multiplicities are positive, its product times a cofactor [r >= 1] is
    [|target|], the certificate is true exactly when [r] is 1, and otherwise
    no element of the table divides [r]. *)
Theorem decomposition_partial (table : list Z) (target : Z) :
  Forall (fun p => 2 <= p) table -> target <> 0 ->
  exists d r,
    primeDecomposition table target = Some d /\
    1 <= r /\ product d * r = Z.abs target /\
    decompCertificate table target None = Some (r =? 1) /\
    (1 < r -> Forall (fun p => ~ (p | r)) table) /\
    (forall k v, d !! k = Some v -> 1 <= v).
Proof.
  intros Htab Hnz.
  destruct (trial_partial table (Z.abs target) ∅ Htab ltac:(lia)
              (decomp_inv_empty _ _))
    as (d & r & Ed & Hr & _ & Hprod & Hnone & Hkeys).
  rewrite product_empty in Hprod.
  assert (Ed' : primeDecomposition table target = Some d).
  { unfold primeDecomposition. destruct (Z.eqb_spec target 0); [contradiction | exact Ed]. }
  exists d, r. split; [exact Ed'|]. split; [exact Hr|]. split; [lia|].
  split; [|split; [exact Hnone | intros k v Hk; apply (Hkeys k v Hk)]].
  destruct (certificate_value table target d Ed') as [_ ->]. f_equal.
  destruct (Z.eqb_spec r 1) as [-> | Hne]; [apply Z.eqb_eq; lia | apply Z.eqb_neq; nia].
Qed.

Lemma decomposition_partial_witness :
  Forall (fun p => 2 <= p) [2; 3; 5; 7] /\ 286 <> 0 /\
  exists d r,
    primeDecomposition [2; 3; 5; 7] 286 = Some d /\
    1 <= r /\ product d * r = Z.abs 286 /\
    decompCertificate [2; 3; 5; 7] 286 None = Some (r =? 1) /\
    (1 < r -> Forall (fun p => ~ (p | r)) [2; 3; 5; 7]) /\
    (forall k v, d !! k = Some v -> 1 <= v).
Proof.
  assert (H1 : Forall (fun p => 2 <= p) [2; 3; 5; 7]) by (repeat constructor; lia).
  assert (H2 : 286 <> 0) by lia.
  split; [exact H1|]. split; [exact H2|].
  exact (decomposition_partial [2; 3; 5; 7] 286 H1 H2).
Defined.

(** X5. Over the ascending table of all the primes up to its maximum [M],
    every key of [primeDecomposition(target)], [|target| > 1], is a prime
    whose recorded power divides the target, also when the target has prime
    factors beyond the table and the certificate is false. *)
Theorem decomposition_keys_complete (table : list Z) (M target : Z) :
  ascending_primes table -> table_max table M -> complete_upto table M ->
  1 < Z.abs target ->
  exists d,
    primeDecomposition table target = Some d /\
    (forall p m, d !! p = Some m -> Z.prime p /\ 1 <= m /\ (p ^ m | target)).
Proof.
  intros Hasc Hmax Hc Habs.
  destruct (decomposition_complete table M target Hasc Hmax Hc Habs)
    as (d & Ed & Hkeys).
  exists d. split; [exact Ed|]. intros p m Hp.
  destruct (Hkeys p m Hp) as [Pp Hm]. split; [exact Pp|]. split; [exact Hm|].
  destruct (decomposition_cofactor table target (ascending_ge2 _ Hasc) ltac:(lia))
    as (d' & r & Ed' & Hprod).
  rewrite Ed in Ed'. injection Ed' as <-.
  destruct (prime_keys_valuation d p m Hkeys Hp) as [Hdiv _].
  apply Z.divide_abs_r. rewrite <- Hprod.
  apply Z.divide_mul_l, Hdiv.
Qed.

Lemma decomposition_keys_complete_witness :
  ascending_primes [2; 3; 5; 7] /\ table_max [2; 3; 5; 7] 7 /\
  complete_upto [2; 3; 5; 7] 7 /\ 1 < Z.abs (-572) /\
  exists d,
    primeDecomposition [2; 3; 5; 7] (-572) = Some d /\
    (forall p m, d !! p = Some m -> Z.prime p /\ 1 <= m /\ (p ^ m | -572)).
Proof.
  destruct small_table as [Hasc Hc]. pose proof small_table_max as Hmax.
  assert (Habs : 1 < Z.abs (-572)) by (cbn; lia).
  repeat (split; [assumption|]).
  exact (decomposition_keys_complete [2; 3; 5; 7] 7 (-572) Hasc Hmax Hc Habs).
Defined.

(** X6. Over the table of all the primes up to [M], a true certificate
    means that the decomposition is the prime factorization: [p] is a key
    of multiplicity [m] exactly when [p] is prime, [m >= 1], [p^m] divides
    the target and [p^(m+1)] does not. *)
Theorem certified_factorization (table : list Z) (M target : Z) :
  ascending_primes table -> table_max table M -> complete_upto table M ->
  1 < Z.abs target -> decompCertificate table target None = Some true ->
  exists d,
    primeDecomposition table target = Some d /\
    forall p m,
      d !! p = Some m <->
      Z.prime p /\ 1 <= m /\ (p ^ m | target) /\ ~ (p ^ (m + 1) | target).
Proof.
  intros Hasc Hmax Hc Habs Hcert.
  destruct (certified_decomposition table M target Hasc Hmax Hc ltac:(lia) Hcert)
    as (d & Ed & Hprod & Hkeys & _).
  exists d. split; [exact Ed|]. intros p m.
  rewrite (prime_keys_exact d (Z.abs target) (Hkeys Habs) Hprod p m).
  rewrite !Z.divide_abs_r. reflexivity.
Qed.

Lemma certified_factorization_witness :
  ascending_primes [2; 3; 5; 7] /\ table_max [2; 3; 5; 7] 7 /\
  complete_upto [2; 3; 5; 7] 7 /\ 1 < Z.abs (-360) /\
  decompCertificate [2; 3; 5; 7] (-360) None = Some true /\
  exists d,
    primeDecomposition [2; 3; 5; 7] (-360) = Some d /\
    forall p m,
      d !! p = Some m <->
      Z.prime p /\ 1 <= m /\ (p ^ m | -360) /\ ~ (p ^ (m + 1) | -360).
Proof.
  destruct small_table as [Hasc Hc]. pose proof small_table_max as Hmax.
  assert (Habs : 1 < Z.abs (-360)) by (cbn; lia).
  assert (Hcert : decompCertificate [2; 3; 5; 7] (-360) None = Some true)
    by (vm_compute; reflexivity).
  repeat (split; [assumption|]).
  exact (certified_factorization [2; 3; 5; 7] 7 (-360) Hasc Hmax Hc Habs Hcert).
Defined.

(** X7. When the table of primes has an element [M] with [|target| <= M^2],
    the certificate of a nonzero target is true: the loop meets the shortcut
    or the cofactor 1 before the table is exhausted. *)
Theorem certificate_within_square (table : list Z) (M target : Z) :
  Forall Z.prime table -> In M table -> target <> 0 ->
  Z.abs target <= M ^ 2 ->
  decompCertificate table target None = Some true.
Proof.
  intros Hp Hin Hnz Hle.
  destruct (trial_bounded table (Z.abs target) ∅ Hp) as (d & Ed & Hprod).
  { exists M. auto. } { lia. } { apply decomp_inv_empty. }
  rewrite product_empty in Hprod.
  assert (Ed' : primeDecomposition table target = Some d).
  { unfold primeDecomposition. destruct (Z.eqb_spec target 0); [contradiction | exact Ed]. }
  destruct (certificate_value table target d Ed') as [_ ->].
  f_equal. apply Z.eqb_eq. lia.
Qed.

Lemma certificate_within_square_witness :
  Forall Z.prime [2; 3; 5; 7] /\ In 7 [2; 3; 5; 7] /\ -49 <> 0 /\
  Z.abs (-49) <= 7 ^ 2 /\
  decompCertificate [2; 3; 5; 7] (-49) None = Some true.
Proof.
  destruct small_table as [[_ Hp] _]. destruct small_table_max as [Hin _].
  assert (Hnz : -49 <> 0) by lia.
  assert (Hle : Z.abs (-49) <= 7 ^ 2) by (vm_compute; discriminate).
  repeat (split; [assumption|]).
  exact (certificate_within_square [2; 3; 5; 7] 7 (-49) Hp Hin Hnz Hle).
Defined.

(** X8. Over the table of all the primes up to [M], a true certificate
    guarantees the list of divisors: [divisors(target)] is the strictly
    ascending list of the positive divisors of the target. *)
Theorem certified_divisors (table : list Z) (M target : Z) :
  ascending_primes table -> table_max table M -> complete_upto table M ->
  target <> 0 -> decompCertificate table target None = Some true ->
  exists l,
    divisors table target false = Some l /\
    StronglySorted Z.lt l /\
    (forall d, In d l <-> 0 < d /\ (d | target)).
Proof.
  intros Hasc Hmax Hc Hnz Hcert.
  destruct (certified_decomposition table M target Hasc Hmax Hc Hnz Hcert)
    as (d & Ed & Hprod & _ & Hkeys).
  destruct (sorted_elements (divisor_set d)) as [Hs Hm].
  exists (merge_sort Z.le (elements (divisor_set d))). split; [|split; [exact Hs|]].
  - unfold divisors. destruct (Z.eqb_spec target 0) as [|_]; [contradiction|].
    cbn zeta. rewrite primeDecomposition_abs, Ed. reflexivity.
  - intros x. rewrite Hm, (divisor_set_spec d Hkeys x), Hprod, Z.divide_abs_r.
    reflexivity.
Qed.

Lemma certified_divisors_witness :
  ascending_primes [2; 3; 5; 7] /\ table_max [2; 3; 5; 7] 7 /\
  complete_upto [2; 3; 5; 7] 7 /\ 198 <> 0 /\
  decompCertificate [2; 3; 5; 7] 198 None = Some true /\
  exists l,
    divisors [2; 3; 5; 7] 198 false = Some l /\
    StronglySorted Z.lt l /\
    (forall d, In d l <-> 0 < d /\ (d | 198)).
Proof.
  destruct small_table as [Hasc Hc]. pose proof small_table_max as Hmax.
  assert (Hnz : 198 <> 0) by lia.
  assert (Hcert : decompCertificate [2; 3; 5; 7] 198 None = Some true)
    by (vm_compute; reflexivity).
  repeat (split; [assumption|]).
  exact (certified_divisors [2; 3; 5; 7] 7 198 Hasc Hmax Hc Hnz Hcert).
Defined.

(** X9. Over the table of all the primes up to [M] and for a nonzero target
    with a true certificate, [expOverOne(target)] is empty exactly when the
    target is square-free. *)
Theorem expOverOne_squarefree (table : list Z) (M target : Z) :
  ascending_primes table -> table_max table M -> complete_upto table M ->
  target <> 0 -> decompCertificate table target None = Some true ->
  expOverOne table target = Some ∅ <->
  forall p, Z.prime p -> ~ (p ^ 2 | target).
Proof.
  intros Hasc Hmax Hc Hnz Hcert.
  destruct (certified_decomposition table M target Hasc Hmax Hc Hnz Hcert)
    as (d & Ed & Hprod & Hkeys & _).
  unfold expOverOne. rewrite Ed.
  destruct (Z.eq_dec (Z.abs target) 1) as [Habs | Habs].
  - split.
    + intros _ p Hp Hdiv. pose proof (prime_gt1 p Hp).
      apply Z.divide_abs_r in Hdiv. rewrite Habs in Hdiv.
      apply Z.divide_1_r_nonneg in Hdiv; nia.
    + intros _. f_equal. apply map_empty. intros k.
      destruct (filter _ d !! k) as [m|] eqn:E; [exfalso | reflexivity].
      apply map_lookup_filter_Some in E as [Hk Hm]. cbn in Hm.
      rewrite (decomposition_unit table target (ascending_ge2 _ Hasc) Habs) in Ed.
      injection Ed as <-. destruct table as [|pr rest].
      * rewrite lookup_empty in Hk. discriminate.
      * apply lookup_singleton_Some in Hk as [_ <-]. lia.
  - specialize (Hkeys ltac:(lia)). split.
    + intros Hempty p Hp Hdiv. injection Hempty as Hempty.
      destruct (product_prime_factor d Hkeys p Hp) as [m Hm].
      { rewrite Hprod. apply Z.divide_abs_r.
        apply (pow_divide_le p 1 2) in Hdiv; [|lia]. rewrite Z.pow_1_r in Hdiv. exact Hdiv. }
      destruct (Hkeys p m Hm) as [_ Hm1].
      destruct (prime_keys_valuation d p m Hkeys Hm) as [_ Hnd].
      rewrite Hprod, Z.divide_abs_r in Hnd.
      assert (1 < m).
      { destruct (Z.eq_dec m 1) as [-> | ?]; [|lia]. contradiction. }
      assert (E : filter (fun pm : Z * Z => 1 < pm.2) d !! p = Some m)
        by (apply map_lookup_filter_Some; auto).
      rewrite Hempty, lookup_empty in E. discriminate.
    + intros Hsf. f_equal. apply map_empty. intros k.
      destruct (filter _ d !! k) as [m|] eqn:E; [exfalso | reflexivity].
      apply map_lookup_filter_Some in E as [Hk Hm]. cbn in Hm.
      destruct (Hkeys k m Hk) as [Pk _].
      destruct (prime_keys_valuation d k m Hkeys Hk) as [Hdiv _].
      rewrite Hprod, Z.divide_abs_r in Hdiv.
      apply (Hsf k Pk). apply (pow_divide_le k 2 m); [lia | exact Hdiv].
Qed.

Lemma expOverOne_squarefree_witness :
  ascending_primes [2; 3; 5; 7] /\ table_max [2; 3; 5; 7] 7 /\
  complete_upto [2; 3; 5; 7] 7 /\ 330 <> 0 /\
  decompCertificate [2; 3; 5; 7] 330 None = Some true /\
  (expOverOne [2; 3; 5; 7] 330 = Some ∅ <->
   forall p, Z.prime p -> ~ (p ^ 2 | 330)).
Proof.
  destruct small_table as [Hasc Hc]. pose proof small_table_max as Hmax.
  assert (Hnz : 330 <> 0) by lia.
  assert (Hcert : decompCertificate [2; 3; 5; 7] 330 None = Some true)
    by (vm_compute; reflexivity).
  repeat (split; [assumption|]).
  exact (expOverOne_squarefree [2; 3; 5; 7] 7 330 Hasc Hmax Hc Hnz Hcert).
Defined.

(** * Square roots of -1 modulo a prime: [i_modP] *)

Lemma pquot_spec (l : list Z) (a x : Z) :
  peval l x = (x - a) * peval (pquot l a) x + peval l a.
Proof.
  induction l as [|c l IH]; [cbn; lia|].
  cbn [peval pquot]. destruct l as [|c' l]; [cbn; lia|].
  cbn [peval] in IH |- *. rewrite IH. lia.
Qed.

Lemma pquot_snoc (l0 : list Z) (c a : Z) :
  l0 <> [] ->
  exists q0, pquot (l0 ++ [c]) a = q0 ++ [c] /\ length q0 = pred (length l0).
Proof.
  induction l0 as [|c0 l0 IH]; [congruence|]. intros _.
  destruct l0 as [|c1 l0].
  - exists []. split; [|reflexivity]. cbn. f_equal. lia.
  - destruct IH as (q0 & E & Hlen); [discriminate|].
    exists (peval ((c1 :: l0) ++ [c]) a :: q0). split.
    + change (pquot ((c0 :: c1 :: l0) ++ [c]) a)
        with (peval ((c1 :: l0) ++ [c]) a :: pquot ((c1 :: l0) ++ [c]) a).
      rewrite E. reflexivity.
    + cbn [length] in Hlen |- *. lia.
Qed.

Lemma prime_mod_mul (p a b : Z) :
  Z.prime p -> (a * b) mod p = 0 -> a mod p = 0 \/ b mod p = 0.
Proof.
  intros Hp H. pose proof (prime_gt1 p Hp).
  apply Z.mod_divide in H; [|lia].
  apply (Z.divide_prime_mul _ _ p Hp) in H as [H | H]; [left | right];
    apply Z.mod_divide; solve [lia | exact H].
Qed.

(** Lagrange: modulo a prime, a polynomial of degree [n] whose leading
    coefficient does not vanish has at most [n] roots. *)
Lemma lagrange_roots (p : Z) :
  Z.prime p ->
  forall (n : nat) (l0 : list Z) (c : Z) (roots : list Z),
    length l0 = n -> c mod p <> 0 -> NoDup roots ->
    (forall r, In r roots -> 0 <= r < p /\ peval (l0 ++ [c]) r mod p = 0) ->
    (length roots <= n)%nat.
Proof.
  intros Hp. pose proof (prime_gt1 p Hp) as Hp1.
  induction n as [|n IH]; intros l0 c roots Hlen Hc Hnd Hroots.
  - destruct l0; [|discriminate]. destruct roots as [|r roots]; [cbn; lia|].
    destruct (Hroots r (or_introl eq_refl)) as [_ Hr]. cbn in Hr.
    replace (c + r * 0) with c in Hr by lia. contradiction.
  - destruct roots as [|a roots]; [cbn; lia|].
    apply NoDup_cons in Hnd as [Ha Hnd].
    destruct (Hroots a (or_introl eq_refl)) as [Ha_range Ha_root].
    destruct (pquot_snoc l0 c a) as (q0 & Eq & Hq0); [destruct l0; discriminate|].
    cbn [length]. apply le_n_S. apply (IH q0 c roots); [lia | exact Hc | exact Hnd|].
    intros r Hr. destruct (Hroots r (or_intror Hr)) as [Hr_range Hr_root].
    split; [exact Hr_range|].
    rewrite (pquot_spec (l0 ++ [c]) a r), Eq in Hr_root.
    rewrite Z.add_mod, Ha_root, Z.add_0_r, Z.mod_mod in Hr_root by lia.
    apply (prime_mod_mul p _ _ Hp) in Hr_root as [Hra | Hq]; [exfalso | exact Hq].
    apply Z.mod_divide in Hra as [k Hk]; [|lia].
    assert (r <> a) by (intros ->; apply Ha, list_elem_of_In, Hr).
    assert (k = 0) by nia. lia.
Qed.

Lemma peval_monomial (n : nat) (x : Z) :
  peval (replicate n 0 ++ [1]) x = x ^ Z.of_nat n.
Proof.
  induction n as [|n IH]; [cbn; lia|].
  cbn [replicate app peval]. rewrite IH, Nat2Z.inj_succ, Z.pow_succ_r by lia. lia.
Qed.

(** Modulo an odd prime some [j] in [1 .. p-1] has [j^((p-1)/2) = -1]. *)
Lemma nonresidue_exists (p : Z) :
  Z.prime p -> p <> 2 ->
  exists j, 1 <= j < p /\ j ^ ((p - 1) / 2) mod p = p - 1.
Proof.
  intros Hp Hp2. pose proof (Z.prime_ge_2 p Hp) as Hge.
  assert (Hodd : p mod 2 = 1).
  { destruct (Z.eq_dec (p mod 2) 1) as [|Hne]; [assumption | exfalso].
    assert (D : (2 | p)) by (apply Z.mod_divide; [lia | euclid]).
    destruct (Z.divide_prime_r 2 p Hp D) as [? | [? | [? | ?]]]; lia. }
  set (N := (p - 1) / 2). assert (HN : p - 1 = 2 * N) by (subst N; euclid).
  assert (HN1 : 1 <= N) by lia.
  destruct (decide (Exists (fun j => j ^ N mod p = p - 1) (seqZ 1 (p - 1))))
    as [Hex | Hall].
  - apply Exists_exists in Hex as (j & Hj & Ej).
    apply elem_of_seqZ in Hj. exists j. split; [lia | exact Ej].
  - exfalso.
    assert (Hroots : forall r, In r (seqZ 1 (p - 1)) ->
              0 <= r < p /\
              peval ((-1 :: replicate (Z.to_nat (N - 1)) 0) ++ [1]) r mod p = 0).
    { intros r Hr. pose proof Hr as Hr'.
      apply list_elem_of_In, elem_of_seqZ in Hr'. split; [lia|].
      cbn [app peval]. rewrite peval_monomial, Z2Nat.id by lia.
      replace (-1 + r * r ^ (N - 1)) with (r ^ N - 1)
        by (replace N with (Z.succ (N - 1)) at 1 by lia; rewrite Z.pow_succ_r by lia; lia).
      assert (Hrp : r mod p <> 0) by (rewrite Z.mod_small by lia; lia).
      pose proof (ZmodInv.Z.fermat_nz p r Hp Hrp) as Hf.
      rewrite HN, Z.mul_comm, Z.pow_mul_r in Hf by lia.
      assert (Hprod : ((r ^ N - 1) * (r ^ N + 1)) mod p = 0).
      { replace ((r ^ N - 1) * (r ^ N + 1)) with ((r ^ N) ^ 2 - 1) by (rewrite Z.pow_2_r; lia).
        rewrite Zminus_mod, Hf, (Z.mod_small 1 p) by lia. reflexivity. }
      apply (prime_mod_mul p _ _ Hp) in Hprod as [H | H]; [exact H | exfalso].
      apply Hall, Exists_exists. exists r. split; [apply list_elem_of_In, Hr|].
      assert (0 <= r ^ N mod p < p) by (apply Z.mod_pos_bound; lia).
      rewrite Z.add_mod in H by lia. rewrite (Z.mod_small 1 p) in H by lia.
      destruct (Z.eq_dec (r ^ N mod p) (p - 1)) as [|Hne]; [assumption | exfalso].
      rewrite Z.mod_small in H by lia. lia. }
    pose proof (lagrange_roots p Hp (Z.to_nat N)
                  (-1 :: replicate (Z.to_nat (N - 1)) 0) 1 (seqZ 1 (p - 1))) as HL.
    rewrite length_seqZ in HL. cbn [length] in HL. rewrite length_replicate in HL.
    specialize (HL ltac:(lia)).
    assert (H1p : 1 mod p <> 0) by (rewrite Z.mod_small by lia; lia).
    specialize (HL H1p (NoDup_seqZ _ _) Hroots). lia.
Qed.

Lemma prime_mod4 (p : Z) : Z.prime p -> p mod 4 <> 3 -> p = 2 \/ p mod 4 = 1.
Proof.
  intros Hp H3. destruct (Z.eq_dec p 2) as [|Hp2]; [left; assumption | right].
  assert (Hnd : ~ (2 | p)).
  { intros D. destruct (Z.divide_prime_r 2 p Hp D) as [? | [? | [? | ?]]];
      pose proof (prime_gt1 p Hp); lia. }
  assert (C : p mod 4 = 0 \/ p mod 4 = 1 \/ p mod 4 = 2) by euclid.
  destruct C as [C | [C | C]]; [exfalso | exact C | exfalso];
    apply Hnd; exists (p / 2); euclid.
Qed.

Lemma i_modP_returns (p : Z) : Z.prime p -> exists i, i_modP p = Some i.
Proof.
  intros Hp. unfold i_modP. destruct (Z.eqb_spec p 2) as [|Hp2]; [eauto|].
  destruct (nonresidue_exists p Hp Hp2) as (j & Hj & Ej).
  destruct (List.find _ (seqZ 1 (p - 1))) as [j'|] eqn:E; [eauto | exfalso].
  assert (Hin : In j (seqZ 1 (p - 1))) by (apply list_elem_of_In, elem_of_seqZ; lia).
  pose proof (find_none _ _ E j Hin) as Hf. cbn beta in Hf.
  apply Z.eqb_neq in Hf. contradiction.
Qed.

(** What [i_modP] returns for [p = 2] or [p = 1 (mod 4)], prime or not, is a
    square root of -1 modulo [p]. *)
Lemma i_modP_square (p i : Z) :
  p = 2 \/ p mod 4 = 1 -> i_modP p = Some i ->
  0 <= i < p /\ (i * i) mod p = p - 1.
Proof.
  intros Hp. unfold i_modP. destruct (Z.eqb_spec p 2) as [-> | Hp2].
  - intros [= <-]. split; [lia | reflexivity].
  - destruct Hp as [|Hp4]; [contradiction|].
    destruct (List.find _ (seqZ 1 (p - 1))) as [j|] eqn:E; [|discriminate].
    intros [= <-]. apply find_some in E as [Hin Ej].
    apply list_elem_of_In, elem_of_seqZ in Hin. apply Z.eqb_eq in Ej.
    split; [apply Z.mod_pos_bound; lia|].
    rewrite <- Z.mul_mod, <- Z.pow_add_r by (try apply Z.div_pos; euclid).
    rewrite <- Ej. f_equal. f_equal. euclid.
Qed.

(** X10. For every prime [p], [i_modP(p)] returns; when [p] is not 3 modulo
    4, the integer [i] it returns has [0 <= i < p] and [i^2 = -1 (mod p)]. *)
Theorem i_modP_correct (p : Z) :
  Z.prime p ->
  exists i,
    i_modP p = Some i /\
    (p mod 4 <> 3 -> 0 <= i < p /\ (i * i) mod p = p - 1).
Proof.
  intros Hp. destruct (i_modP_returns p Hp) as [i Ei]. exists i.
  split; [exact Ei|]. intros H3.
  apply (i_modP_square p i); [apply prime_mod4; assumption | exact Ei].
Qed.

Lemma i_modP_correct_witness :
  Z.prime 13 /\
  exists i,
    i_modP 13 = Some i /\
    (13 mod 4 <> 3 -> 0 <= i < 13 /\ (i * i) mod 13 = 13 - 1).
Proof.
  assert (H : Z.prime 13) by (apply prime_check_sound; vm_compute; reflexivity).
  split; [exact H | exact (i_modP_correct 13 H)].
Defined.

(** * Sums of two squares: [sumOfSquares] *)

Lemma sos_inv_init (p i : Z) :
  0 <= i < p -> (i * i) mod p = p - 1 -> sos_inv p p i 0 1.
Proof.
  intros Hi Hsq. split; [lia | lia | lia | | |].
  - exists p. lia.
  - exists (i * i / p + 1).
    pose proof (Z.div_mod (i * i) p ltac:(lia)). lia.
  - exists i. lia.
Qed.

Lemma sos_inv_step (p a b sa sb : Z) :
  sos_inv p a b sa sb -> 0 < b ->
  sos_inv p b (a mod b) sb (sa + a / b * sb).
Proof.
  intros [Hr Hs Hdet Ha Hb Hab] Hb0.
  assert (Eq : a = b * (a / b) + a mod b) by (apply Z.div_mod; lia).
  assert (Hmod : 0 <= a mod b < b) by (apply Z.mod_pos_bound; lia).
  assert (Hq : 1 <= a / b) by (apply Z.div_le_lower_bound; lia).
  set (q := a / b) in *. set (r := a mod b) in *.
  split.
  - lia.
  - nia.
  - nia.
  - exact Hb.
  - replace (r * r + (sa + q * sb) * (sa + q * sb))
      with ((a * a + sa * sa) + q * q * (b * b + sb * sb) - 2 * q * (a * b - sa * sb))
      by (replace r with (a - b * q) by lia; ring).
    apply Z.divide_sub_r; [apply Z.divide_add_r|];
      [exact Ha | apply Z.divide_mul_r, Hb | apply Z.divide_mul_r, Hab].
  - replace (b * r - sb * (sa + q * sb))
      with ((a * b - sa * sb) - q * (b * b + sb * sb))
      by (replace r with (a - b * q) by lia; ring).
    apply Z.divide_sub_r; [exact Hab | apply Z.divide_mul_r, Hb].
Qed.

Lemma prime_not_square (p x : Z) : Z.prime p -> x * x <> p.
Proof. intros Hp E. rewrite <- E in Hp. exact (Z.not_prime_square x Hp). Qed.

Lemma sos_small_norm (p A B sA sB : Z) :
  Z.prime p -> sos_inv p A B sA sB -> p < A * A -> B * B < p ->
  B * B + sB * sB = p.
Proof.
  intros Hp [Hr Hs Hdet _ Hb _] HA HB. pose proof (prime_gt1 p Hp).
  assert (HsB : sB * sB < p).
  { destruct (Z_lt_le_dec (sB * sB) p) as [|Hge]; [assumption | exfalso].
    assert (A * sB <= p) by nia.
    assert (p * p <= p * (sB * sB)) by (apply Z.mul_le_mono_nonneg_l; lia).
    assert (p * (sB * sB) < (A * A) * (sB * sB)) by (apply Z.mul_lt_mono_pos_r; lia).
    assert (p * p < (A * A) * (sB * sB)) by lia.
    assert (0 <= A * sB) by nia.
    assert ((A * sB) * (A * sB) <= p * p) by (apply Z.mul_le_mono_nonneg; lia).
    replace (A * A * (sB * sB)) with (A * sB * (A * sB)) in * by ring. lia. }
  destruct Hb as [k Hk].
  assert (0 < B * B + sB * sB).
  { destruct (Z.eq_dec B 0) as [-> | ?]; [|nia].
    destruct (Z.eq_dec sB 0) as [-> | ?]; [lia | nia]. }
  assert (B * B + sB * sB < 2 * p) by lia.
  assert (0 < k) by nia. assert (k < 2) by nia. 
  assert (k = 1) by lia. lia.
Qed.

Lemma sos_coprime (p a b : Z) :
  Z.prime p -> a * a + b * b = p -> Z.gcd a b = 1.
Proof.
  intros Hp E. pose proof (Z.gcd_nonneg a b) as Hg.
  destruct (Z.gcd_divide_l a b) as [ka Ha]. destruct (Z.gcd_divide_r a b) as [kb Hb].
  pose proof (prime_gt1 p Hp) as Hp1.
  set (g := Z.gcd a b) in *.
  assert (D : (g * g | p)).
  { exists (ka * ka + kb * kb). rewrite <- E. rewrite Ha at 1 2. rewrite Hb at 1 2. ring. }
  assert (0 <= g * g) by (apply Z.square_nonneg).
  destruct (Z.divide_prime_r (g * g) p Hp D) as [E1 | [E1 | [E1 | E1]]]; [lia | lia | | ].
  - destruct (Z.eq_dec g 1) as [|Hne]; [assumption|].
    assert (2 <= g) by (destruct (Z.eq_dec g 0) as [E0|]; [rewrite E0 in E1; lia | lia]).
    assert (2 * 2 <= g * g) by (apply Z.mul_le_mono_nonneg; lia). lia.
  - destruct (prime_not_square p g Hp E1).
Qed.

Lemma sos_next_cofactor (p A B sA sB : Z) :
  Z.prime p -> p <> 2 -> sos_inv p A B sA sB -> p < A * A -> B * B < p ->
  A mod B = sB.
Proof.
  intros Hp Hp2 Hinv HA HB.
  pose proof (sos_small_norm p A B sA sB Hp Hinv HA HB) as Hnorm.
  pose proof (prime_gt1 p Hp) as Hp1.
  assert (HB0 : 0 < B).
  { destruct Hinv as [Hr _ _ _ _ _]. destruct (Z.eq_dec B 0) as [-> | ?]; [|lia].
    exfalso. apply (prime_not_square p sB Hp). lia. }
  pose proof (sos_inv_step p A B sA sB Hinv HB0) as [Hr' Hs' Hdet' _ _ _].
  destruct Hinv as [Hr Hs Hdet _ _ _].
  assert (Eq : A = B * (A / B) + A mod B) by (apply Z.div_mod; lia).
  assert (Hq : 1 <= A / B) by (apply Z.div_le_lower_bound; lia).
  set (q := A / B) in *. set (x := A mod B) in *.
  pose proof (sos_coprime p B sB Hp Hnorm) as Hg.
  assert (Hdiv : (B | sB - x)).
  { apply (Z.gauss B sB (sB - x)); [|exact Hg].
    exists (sA + q * sB - B). lia. }
  destruct Hdiv as [m Hm].
  assert (Hy : sA + q * sB - B = m * sB).
  { apply (Z.mul_reg_l _ _ B); [lia|]. 
    replace (B * (m * sB)) with (sB * (m * B)) by ring. rewrite <- Hm. lia. }
  destruct (Z.lt_trichotomy m 0) as [Hneg | [-> | Hpos]]; [exfalso | lia | exfalso].
  - assert (m * B <= -1 * B) by (apply Z.mul_le_mono_nonneg_r; lia). lia.
  - assert (HmB : 1 * B <= m * B) by (apply Z.mul_le_mono_nonneg_r; lia).
    assert (Hba : B <= sB) by lia.
    assert (HsA : sA = B - (q - m) * sB) by lia.
    assert (HA' : A = (q - m) * B + sB) by lia.
    generalize dependent (q - m). intros n HsA HA'.
    destruct (Z.lt_trichotomy n 0) as [Hn | [Hn | Hn]].
    + assert (n * sB <= -1 * sB) by (apply Z.mul_le_mono_nonneg_r; lia). lia.
    + subst n. assert (EA : A = sB) by lia. rewrite EA in HA.
      assert (0 <= B * B) by apply Z.square_nonneg. lia.
    + assert (1 * sB <= n * sB) by (apply Z.mul_le_mono_nonneg_r; lia).
      assert (B = sB) by lia. subst sB.
      rewrite Z.gcd_diag in Hg. assert (B = 1) by lia. subst B. lia.
Qed.

(** The last remainder above the square root is not [isqrt p + 1], so that
    the test [a > upperBound] lets the loop go on to the next pair. *)
Lemma sos_last_large (p A B sA sB : Z) :
  Z.prime p -> p <> 2 -> p <> 5 -> sos_inv p A B sA sB ->
  p < A * A -> B * B < p -> A <> Z.sqrt p + 1.
Proof.
  intros Hp Hp2 Hp5 Hinv HA HB EA.
  pose proof (sos_small_norm p A B sA sB Hp Hinv HA HB) as Hnorm.
  pose proof (sos_next_cofactor p A B sA sB Hp Hp2 Hinv HA HB) as Hx.
  pose proof (prime_gt1 p Hp) as Hp1.
  assert (HB0 : 0 < B).
  { destruct Hinv as [Hr _ _ _ _ _]. destruct (Z.eq_dec B 0) as [-> | ?]; [|lia].
    exfalso. apply (prime_not_square p sB Hp). lia. }
  pose proof (sos_inv_step p A B sA sB Hinv HB0) as [Hr' _ Hdet' _ _ _].
  destruct Hinv as [Hr Hs Hdet _ _ _].
  assert (Eq : A = B * (A / B) + A mod B) by (apply Z.div_mod; lia).
  assert (Hq : 1 <= A / B) by (apply Z.div_le_lower_bound; lia).
  rewrite Hx in *. set (q := A / B) in *.
  assert (HsB0 : 0 < sB).
  { destruct (Z.eq_dec sB 0) as [E0 | ?]; [|lia].
    exfalso. apply (prime_not_square p B Hp). rewrite E0 in Hnorm. lia. }
  assert (HB2 : 2 <= B) by lia.
  destruct (Z.sqrt_spec p ltac:(lia)) as [Hs1 _].
  replace (Z.sqrt p) with (A - 1) in Hs1 by lia.
  assert (HBB : 2 * B <= B * B) by (apply Z.mul_le_mono_nonneg_r; lia).
  assert (HsBB : sB * sB <= (B - 1) * (B - 1)) by (apply Z.mul_le_mono_nonneg; lia).
  destruct (Z.eq_dec q 1) as [Eq1 | Hq1].
  - rewrite Eq1 in *.
    assert (EA1 : A - 1 = B + sB - 1) by lia. rewrite EA1 in Hs1.
    assert (HsB1 : sB = 1).
    { destruct (Z.eq_dec sB 1) as [|Hne]; [assumption | exfalso].
      assert (1 * 1 <= (B - 1) * (sB - 1)) by (apply Z.mul_le_mono_nonneg; lia).
      replace ((B + sB - 1) * (B + sB - 1))
        with (B * B + sB * sB + 2 * ((B - 1) * (sB - 1)) - 1) in Hs1 by ring.
      lia. }
    rewrite HsB1 in *. assert (B * (sA + 1) = B * B) by lia.
    assert (sA + 1 = B) by (apply (Z.mul_reg_l _ _ B); lia).
    assert (B = 2) by lia. subst B. lia.
  - assert (H2q : 2 * B <= B * q) by (rewrite (Z.mul_comm B q); apply Z.mul_le_mono_nonneg_r; lia).
    assert (Hlow : (2 * B - 1) * (2 * B - 1) <= (A - 1) * (A - 1))
      by (apply Z.mul_le_mono_nonneg; lia).
    replace ((2 * B - 1) * (2 * B - 1)) with (4 * (B * B) - 4 * B + 1) in Hlow by ring.
    replace ((B - 1) * (B - 1)) with (B * B - 2 * B + 1) in HsBB by ring.
    lia.
Qed.

Lemma sos_loop_exit (fuel : nat) (U a b : Z) :
  (negb (b =? 0) && ((a >? U) || (b >? U))) = false ->
  sos_loop fuel U a b = Some (a, b).
Proof. intros H. destruct fuel; cbn [sos_loop]; rewrite H; reflexivity. Qed.

Lemma sos_loop_step (fuel : nat) (U a b : Z) :
  (negb (b =? 0) && ((a >? U) || (b >? U))) = true ->
  sos_loop (S fuel) U a b = sos_loop fuel U b (a mod b).
Proof. intros H. cbn [sos_loop]. rewrite H. reflexivity. Qed.

Lemma sos_b_pos (p a b sa sb : Z) :
  Z.prime p -> sos_inv p a b sa sb -> p < a * a -> 0 < b.
Proof.
  intros Hp [Hr Hs Hdet _ Hnb _] Ha. pose proof (prime_gt1 p Hp) as Hp1.
  destruct (Z.eq_dec b 0) as [E0 | ?]; [exfalso | lia].
  rewrite E0 in *. rewrite Z.mul_0_l, Z.add_0_l in Hnb.
  rewrite Z.mul_0_l, Z.add_0_r in Hdet.
  apply (Z.divide_prime_mul _ _ p Hp) in Hnb.
  assert (Hd : (p | sb)) by tauto. destruct Hd as [k Hk].
  rewrite Hk in Hdet.
  assert (Hak : a * k = 1) by (apply (Z.mul_reg_r _ _ p); lia).
  assert (a = 1).
  { assert (D : (a | 1)) by (exists k; lia).
    apply Z.divide_1_r_nonneg in D; lia. }
  subst a. lia.
Qed.

(** From a remainder above the square root on, the loop ends at the first
    pair of remainders below it, whose squares sum to [p]. *)
Lemma sos_loop_large (p : Z) :
  Z.prime p -> p <> 2 -> p <> 5 ->
  forall (fuel : nat) a b sa sb,
    sos_inv p a b sa sb -> p < a * a -> Z.sqrt p + 1 < a ->
    b <= Z.of_nat fuel ->
    exists x y,
      sos_loop fuel (Z.sqrt p + 1) a b = Some (x, y) /\
      x * x + y * y = p /\ 0 < y < x.
Proof.
  intros Hp Hp2 Hp5. pose proof (prime_gt1 p Hp) as Hp1.
  induction fuel as [|fuel IH]; intros a b sa sb Hinv Ha HaU Hfuel.
  all: pose proof (sos_b_pos p a b sa sb Hp Hinv Ha) as Hb0.
  - lia.
  - rewrite sos_loop_step.
    2:{ destruct (Z.eqb_spec b 0); [lia|]. destruct (Z.gtb_spec a (Z.sqrt p + 1)); [reflexivity | lia]. }
    pose proof (sos_inv_step p a b sa sb Hinv Hb0) as Hinv'.
    assert (Hc : 0 <= a mod b < b) by (apply Z.mod_pos_bound; lia).
    destruct (Z.lt_trichotomy (b * b) p) as [Hlt | [E | Hgt]].
    + pose proof (sos_small_norm p a b sa sb Hp Hinv Ha Hlt) as Hnorm.
      pose proof (sos_next_cofactor p a b sa sb Hp Hp2 Hinv Ha Hlt) as Hx.
      exists b, (a mod b). split.
      * apply sos_loop_exit.
        assert (b <= Z.sqrt p) by (apply Z.sqrt_le_square; lia).
        destruct (Z.gtb_spec b (Z.sqrt p + 1)); [lia|].
        destruct (Z.gtb_spec (a mod b) (Z.sqrt p + 1)); [lia|].
        apply andb_false_r.
      * rewrite Hx. split; [exact Hnorm|]. rewrite <- Hx. split; [|lia].
        destruct (Z.eq_dec (a mod b) 0) as [E0 | ?]; [exfalso | lia].
        apply (prime_not_square p b Hp). rewrite <- Hx, E0 in Hnorm. lia.
    + destruct (prime_not_square p b Hp E).
    + assert (HbU : Z.sqrt p < b) by (apply Z.sqrt_lt_square; lia).
      assert (Hcfuel : a mod b <= Z.of_nat fuel) by lia.
      destruct (Z.eq_dec b (Z.sqrt p + 1)) as [EU | HneU].
      * exfalso. apply (sos_last_large p b (a mod b) _ _ Hp Hp2 Hp5 Hinv' Hgt); [|exact EU].
        assert (a mod b <= Z.sqrt p) by lia.
        assert (a mod b * (a mod b) <= p) by (apply Z.sqrt_le_square; lia).
        destruct (Z.eq_dec (a mod b * (a mod b)) p) as [E | ?]; [|lia].
        destruct (prime_not_square p _ Hp E).
      * apply (IH b (a mod b) _ _ Hinv' Hgt); lia.
Qed.


Lemma sqrt_succ_lt (p : Z) : 3 <= p -> Z.sqrt p + 1 < p.
Proof.
  intros Hp. destruct (Z.sqrt_spec p ltac:(lia)) as [Hs _].
  pose proof (Z.sqrt_nonneg p).
  destruct (Z_lt_le_dec (Z.sqrt p) 2) as [|H2]; [lia|].
  assert (2 * Z.sqrt p <= Z.sqrt p * Z.sqrt p) by (apply Z.mul_le_mono_nonneg_r; lia).
  lia.
Qed.

(** From a square root [i] of -1 modulo an odd prime [p], the loop of
    [sumOfSquares] reaches a pair whose squares sum to [p]. *)
Lemma sumOfSquares_from_root (p i : Z) :
  Z.prime p -> p <> 2 ->
  i_modP p = Some i -> 0 <= i < p -> (i * i) mod p = p - 1 ->
  exists a b,
    sumOfSquares p = Some (a, b) /\ a * a + b * b = p /\ 0 < b <= a.
Proof.
  intros Hp Hp2 Ei Hrange Hsq. pose proof (Z.prime_ge_2 p Hp) as Hge.
  destruct (Z.eq_dec p 5) as [-> | Hp5].
  { exists 2, 1. split; [vm_compute; reflexivity|]. lia. }
  unfold sumOfSquares. destruct (Z.eqb_spec p 2) as [|_]; [contradiction|].
  cbn zeta. rewrite Ei.
  pose proof (sqrt_succ_lt p ltac:(lia)) as HU.
  destruct (Z.to_nat p) as [|fuel] eqn:Efuel; [lia|].
  rewrite sos_loop_step.
  2:{ destruct (Z.eqb_spec p 0); [lia|].
      destruct (Z.gtb_spec p (Z.sqrt p + 1)); [apply orb_true_r | lia]. }
  rewrite (Z.mod_small i p) by lia.
  destruct (sos_loop_large p Hp Hp2 Hp5 fuel p i 0 1) as (x & y & E & Hsum & Hy).
  - apply sos_inv_init; assumption.
  - assert (2 * p <= p * p) by (apply Z.mul_le_mono_nonneg_r; lia). lia.
  - exact HU.
  - lia.
  - exists x, y. split; [exact E|]. split; [exact Hsum | lia].
Qed.

Lemma sumOfSquares_prime (p : Z) :
  Z.prime p -> p mod 4 <> 3 ->
  exists a b,
    sumOfSquares p = Some (a, b) /\ a * a + b * b = p /\ 0 < b <= a.
Proof.
  intros Hp H3. destruct (Z.eq_dec p 2) as [-> | Hp2].
  { exists 1, 1. split; [reflexivity|]. lia. }
  destruct (i_modP_returns p Hp) as [i Ei].
  destruct (i_modP_square p i (prime_mod4 p Hp H3) Ei) as [Hrange Hsq].
  exact (sumOfSquares_from_root p i Hp Hp2 Ei Hrange Hsq).
Qed.





(** X13. For every [p <= 1] both [i_modP(p)] and [sumOfSquares(p)] raise:
    the loop of [i_modP] has no round and leaves [i] unbound. *)
Theorem sumOfSquares_small (p : Z) :
  p <= 1 -> i_modP p = None /\ sumOfSquares p = None.
Proof.
  intros Hp.
  assert (E : i_modP p = None).
  { unfold i_modP. destruct (Z.eqb_spec p 2); [lia|].
    rewrite seqZ_nil by lia. reflexivity. }
  split; [exact E|]. unfold sumOfSquares. destruct (Z.eqb_spec p 2); [lia|].
  cbn zeta. rewrite E. reflexivity.
Qed.

Lemma sumOfSquares_small_witness :
  1 <= 1 /\ i_modP 1 = None /\ sumOfSquares 1 = None.
Proof. assert (H : 1 <= 1) by lia. split; [exact H | exact (sumOfSquares_small 1 H)]. Defined.

(** * The table of sums of two squares *)

Lemma SOSpr_from_spec (prBank : list Z) : forall acc,
  Forall Z.prime prBank ->
  exists m,
    SOSpr_from prBank acc = Some m /\
    forall p ab,
      m !! p = Some ab <->
      (In p prBank /\ p mod 4 <> 3 /\ sumOfSquares p = Some ab) \/
      (~ (In p prBank /\ p mod 4 <> 3) /\ acc !! p = Some ab).
Proof.
  induction prBank as [|p0 rest IH]; intros acc Hprime.
  - exists acc. split; [reflexivity|]. intros p ab. cbn [In]. tauto.
  - apply Forall_cons_1 in Hprime as [Hp0 Hprime]. cbn [SOSpr_from].
    destruct (Z.eqb_spec (p0 mod 4) 3) as [E3 | H3].
    + destruct (IH acc Hprime) as (m & Em & Hm). exists m. split; [exact Em|].
      intros p ab. rewrite Hm. cbn [In]. split.
      * intros [(Hin & Hmod & Hs) | (Hn & Hacc)]; [left; tauto | right].
        split; [|exact Hacc]. intros [[<- | Hin] Hmod]; [lia | tauto].
      * intros [([<- | Hin] & Hmod & Hs) | (Hn & Hacc)]; [lia | left; tauto | right].
        split; [tauto | exact Hacc].
    + destruct (sumOfSquares_prime p0 Hp0 H3) as (a0 & b0 & E0 & _).
      rewrite E0. destruct (IH (<[p0 := (a0, b0)]> acc) Hprime) as (m & Em & Hm).
      exists m. split; [exact Em|]. intros p ab. rewrite Hm. cbn [In].
      destruct (Z.eq_dec p0 p) as [<- | Hne].
      * rewrite lookup_insert_eq. split.
        -- intros [(Hin & Hmod & Hs) | (Hn & Hacc)]; [left; tauto|].
           left. split; [left; reflexivity|]. split; [exact H3 | congruence].
        -- intros [(_ & _ & Hs) | (Hn & _)]; [|exfalso; apply Hn; auto].
           destruct (in_dec Z.eq_dec p0 rest) as [Hin | Hnin]; [left; tauto | right].
           split; [tauto | congruence].
      * rewrite lookup_insert_ne by exact Hne. split.
        -- intros [(Hin & Hmod & Hs) | (Hn & Hacc)]; [left; tauto | right].
           split; [|exact Hacc]. intros [[E | Hin] Hmod]; [contradiction | tauto].
        -- intros [([E | Hin] & Hmod & Hs) | (Hn & Hacc)];
             [contradiction | left; tauto | right].
           split; [tauto | exact Hacc].
Qed.

(** X14. For every bound [N > 5], the dictionary that [pickleSumOfSquares(N)]
    builds has as keys exactly the primes below [N] that are not 3 modulo 4,
    and maps each key [p] to [sumOfSquares(p)], a pair [(a, b)] with
    [a^2 + b^2 = p] and [0 < b <= a]. *)
Theorem SOSpr_correct (N : Z) :
  5 < N ->
  exists m,
    SOSpr N = Some m /\
    (forall p, is_Some (m !! p) <-> Z.prime p /\ p < N /\ p mod 4 <> 3) /\
    (forall p a b,
       m !! p = Some (a, b) ->
       sumOfSquares p = Some (a, b) /\ a * a + b * b = p /\ 0 < b <= a).
Proof.
  intros HN. destruct (genPrimes_spec N HN) as (prBank & E & _ & Hmem).
  unfold SOSpr. rewrite E.
  assert (Hprime : Forall Z.prime prBank).
  { apply Forall_forall. intros p Hp. apply list_elem_of_In, Hmem in Hp. tauto. }
  destruct (SOSpr_from_spec prBank ∅ Hprime) as (m & Em & Hm).
  exists m. split; [exact Em|]. split.
  - intros p. split.
    + intros [ab Hab]. apply Hm in Hab as [(Hin & Hmod & _) | (_ & Hab)].
      * apply Hmem in Hin. tauto.
      * rewrite lookup_empty in Hab. discriminate.
    + intros (Hp & Hlt & Hmod).
      destruct (sumOfSquares_prime p Hp Hmod) as (a & b & Es & _).
      exists (a, b). apply Hm. left. split; [apply Hmem; auto | auto].
  - intros p a b Hab. apply Hm in Hab as [(Hin & Hmod & Hs) | (_ & Hab)].
    + split; [exact Hs|]. apply Hmem in Hin as [Hp _].
      destruct (sumOfSquares_prime p Hp Hmod) as (a' & b' & Es & Hsum & Hb).
      rewrite Hs in Es. injection Es as <- <-. auto.
    + rewrite lookup_empty in Hab. discriminate.
Qed.

Lemma SOSpr_correct_witness :
  5 < 30 /\
  exists m,
    SOSpr 30 = Some m /\
    (forall p, is_Some (m !! p) <-> Z.prime p /\ p < 30 /\ p mod 4 <> 3) /\
    (forall p a b,
       m !! p = Some (a, b) ->
       sumOfSquares p = Some (a, b) /\ a * a + b * b = p /\ 0 < b <= a).
Proof. assert (H : 5 < 30) by lia. split; [exact H | exact (SOSpr_correct 30 H)]. Defined.

(** * Outside the precondition of [sumOfSquares] *)



(** * Proper divisors *)

(** X16. Over the table of all the primes up to [M] and for a nonzero target
    with a true certificate, [divisors(target, proper=True)] is empty exactly
    when [|target|] is 1 or a prime. *)
Theorem proper_divisors_empty (table : list Z) (M target : Z) :
  ascending_primes table -> table_max table M -> complete_upto table M ->
  target <> 0 -> decompCertificate table target None = Some true ->
  divisors table target true = Some [] <->
  Z.abs target = 1 \/ Z.prime (Z.abs target).
Proof.
  intros Hasc Hmax Hc Hnz Hcert.
  destruct (certified_decomposition table M target Hasc Hmax Hc Hnz Hcert)
    as (d & Ed & Hprod & _ & Hkeys).
  pose proof (divisor_set_spec d Hkeys) as HS. rewrite Hprod in HS.
  assert (E : divisors table target true =
              Some (merge_sort Z.le (elements (divisor_set d ∖ {[1; Z.abs target]})))).
  { unfold divisors. destruct (Z.eqb_spec target 0) as [|_]; [contradiction|].
    cbn zeta. rewrite primeDecomposition_abs, Ed. reflexivity. }
  rewrite E.
  assert (Hnil : merge_sort Z.le (elements (divisor_set d ∖ {[1; Z.abs target]})) = [] <->
                 forall x, 0 < x -> (x | Z.abs target) -> x = 1 \/ x = Z.abs target).
  { destruct (sorted_elements (divisor_set d ∖ {[1; Z.abs target]})) as [_ Hm].
    split.
    - intros Hl x Hx Hdiv.
      destruct (Z.eq_dec x 1) as [|H1]; [auto|].
      destruct (Z.eq_dec x (Z.abs target)) as [|H2]; [auto | exfalso].
      assert (Hin : In x (merge_sort Z.le (elements (divisor_set d ∖ {[1; Z.abs target]})))).
      { apply Hm. rewrite elem_of_difference, elem_of_union, !elem_of_singleton.
        split; [apply HS; auto | tauto]. }
      rewrite Hl in Hin. destruct Hin.
    - intros Hall.
      destruct (merge_sort Z.le (elements (divisor_set d ∖ {[1; Z.abs target]})))
        as [|x l] eqn:El; [reflexivity | exfalso].
      assert (Hin : x ∈ divisor_set d ∖ {[1; Z.abs target]}) by (apply Hm; left; reflexivity).
      rewrite elem_of_difference, elem_of_union, !elem_of_singleton in Hin.
      destruct Hin as [Hx Hne]. apply HS in Hx as [Hx Hdiv].
      destruct (Hall x Hx Hdiv); tauto. }
  split.
  - intros [= Hl]. pose proof (proj1 Hnil Hl) as Hall. clear Hl. rename Hall into Hl.
    destruct (Z.eq_dec (Z.abs target) 1) as [|Hne]; [left; assumption | right].
    split; [lia|]. intros n Hn Hdiv. destruct (Hl n ltac:(lia) Hdiv); lia.
  - intros Hcase. f_equal. apply Hnil. intros x Hx Hdiv.
    destruct Hcase as [E1 | Hp].
    + left. rewrite E1 in Hdiv. apply Z.divide_1_r_nonneg in Hdiv; lia.
    + destruct (Z.divide_prime_r x _ Hp Hdiv) as [? | [? | [? | ?]]]; lia.
Qed.

Lemma proper_divisors_empty_witness :
  ascending_primes [2; 3; 5; 7] /\ table_max [2; 3; 5; 7] 7 /\
  complete_upto [2; 3; 5; 7] 7 /\ -47 <> 0 /\
  decompCertificate [2; 3; 5; 7] (-47) None = Some true /\
  (divisors [2; 3; 5; 7] (-47) true = Some [] <->
   Z.abs (-47) = 1 \/ Z.prime (Z.abs (-47))).
Proof.
  destruct small_table as [Hasc Hc]. pose proof small_table_max as Hmax.
  assert (Hnz : -47 <> 0) by lia.
  assert (Hcert : decompCertificate [2; 3; 5; 7] (-47) None = Some true)
    by (vm_compute; reflexivity).
  repeat (split; [assumption|]).
  exact (proper_divisors_empty [2; 3; 5; 7] 7 (-47) Hasc Hmax Hc Hnz Hcert).
Defined.
